(** * Ride-Sharing: a shallow embedding of [main.cpp]

    The program has three class families: [Ride] with its two concrete
    subclasses [StandardRide] and [PremiumRide], [Driver] and [Rider].
    Objects of the [Ride] family live on the free store and are handed
    around as [std::shared_ptr<Ride>]; drivers and riders keep vectors of
    such pointers.  Everything the program shows goes through [std::cout].

    Conventions of the embedding:
    - [double] is the kernel's binary64 type [float]; the literals [1.50],
      [3.00], [0.0] and the comparisons against [0] and [5] are the IEEE
      operations of [PrimFloat];
    - [int] is [Z] (the program never computes with an identifier, it only
      stores and prints it);
    - [std::string] is [string];
    - a [throw] is the [Throws] branch of [outcome]; a member function that
      throws leaves its object as it was, so only the normal branch carries
      a new object;
    - [std::cout] is an explicit [ostream] value threaded through every
      printing member function: its format flags are sticky, exactly as in
      the library. *)

From Stdlib Require Import ZArith Floats Ascii.
From stdpp Require Import gmap strings list pretty.

Open Scope Z_scope.

(** Decimal literals such as [4.8] denote the nearest [double], as in C++. *)
Set Warnings "-inexact-float".

(** ** Exceptions *)

Inductive exception : Type :=
| invalid_argument (what_arg : string).

Definition what (e : exception) : string :=
  match e with invalid_argument s => s end.

Inductive outcome (A : Type) : Type :=
| Returns (a : A)
| Throws (e : exception).
Arguments Returns {A} a.
Arguments Throws {A} e.

Definition is_invalid_argument {A} (r : outcome A) : Prop :=
  ∃ msg, r = Throws (invalid_argument msg).

(** ** The output stream *)

(** The part of [std::ios_base::fmtflags] the program touches. *)
Inductive floatfield : Type :=
| defaultfloat
| fixed.

(** The locale's [std::num_put] facet: how a [double] is rendered under a
    given [floatfield] and precision.  The program does not define it; it
    is the one capability of the C++ library the embedding has to take as
    an interface. *)
Class num_put : Type :=
  do_put : floatfield → Z → float → string.

Record ostream : Type := mk_ostream {
  os_floatfield : floatfield;
  os_precision : Z;
  os_buf : string
}.

(** [std::cout] at program start. *)
Definition cout0 : ostream :=
  {| os_floatfield := defaultfloat; os_precision := 6; os_buf := "" |}.

Definition nl : string := String "010"%char "".

Definition put_str (s : string) (os : ostream) : ostream :=
  {| os_floatfield := os_floatfield os;
     os_precision := os_precision os;
     os_buf := os_buf os +:+ s |}.

(** [os << n] for an [int]. *)
Definition put_int (n : Z) (os : ostream) : ostream :=
  put_str (pretty n) os.

(** [os << n] for a [std::size_t]. *)
Definition put_size (n : nat) (os : ostream) : ostream :=
  put_str (pretty n) os.

(** [os << std::fixed] *)
Definition set_fixed (os : ostream) : ostream :=
  {| os_floatfield := fixed;
     os_precision := os_precision os;
     os_buf := os_buf os |}.

(** [os << std::setprecision(n)] *)
Definition setprecision (n : Z) (os : ostream) : ostream :=
  {| os_floatfield := os_floatfield os;
     os_precision := n;
     os_buf := os_buf os |}.

(** [os << x] for a [double]. *)
Definition put_double `{num_put} (x : float) (os : ostream) : ostream :=
  put_str (do_put (os_floatfield os) (os_precision os) x) os.

(** [os << std::endl]: a newline (the flush is not observable here). *)
Definition endl (os : ostream) : ostream := put_str nl os.

(** ** class Ride *)

Module Ride.

Record t : Type := mk {
  rideID : Z;
  pickupLocation : string;
  dropoffLocation : string;
  distance : float;
  fare : float
}.

(** [Ride::Ride]: the member initialisers run first, then the check. *)
Definition ctor (id : Z) (pickup dropoff : string) (dist : float) : outcome t :=
  let this := mk id pickup dropoff dist 0%float in
  if PrimFloat.leb dist 0%float
  then Throws (invalid_argument "Distance must be greater than 0")
  else Returns this.

(** [Ride::rideDetails] *)
Definition rideDetails `{num_put} (this : t) (os : ostream) : ostream :=
  let os := put_str "Ride ID: " os in
  let os := put_int (rideID this) os in
  let os := put_str (nl +:+ "Pickup: ") os in
  let os := put_str (pickupLocation this) os in
  let os := put_str (nl +:+ "Dropoff: ") os in
  let os := put_str (dropoffLocation this) os in
  let os := put_str (nl +:+ "Distance: ") os in
  let os := put_double (distance this) os in
  let os := put_str " miles" os in
  let os := put_str (nl +:+ "Fare: $") os in
  let os := set_fixed os in
  let os := setprecision 2 os in
  put_double (fare this) os.

Definition getFare (this : t) : float := fare this.
Definition getRideID (this : t) : Z := rideID this.
Definition getPickupLocation (this : t) : string := pickupLocation this.
Definition getDropoffLocation (this : t) : string := dropoffLocation this.
Definition getDistance (this : t) : float := distance this.

(** Assignment to the protected member [fare]. *)
Definition set_fare (x : float) (this : t) : t :=
  mk (rideID this) (pickupLocation this) (dropoffLocation this)
     (distance this) x.

End Ride.

(** ** class StandardRide : public Ride *)

Module StandardRide.

Definition ctor (id : Z) (pickup dropoff : string) (dist : float)
  : outcome Ride.t :=
  Ride.ctor id pickup dropoff dist.

Definition calculateFare (this : Ride.t) : Ride.t :=
  Ride.set_fare (PrimFloat.mul (Ride.distance this) 1.5%float) this.

Definition rideDetails `{num_put} (this : Ride.t) (os : ostream) : ostream :=
  let os := Ride.rideDetails this os in
  let os := put_str " (Standard Ride)" os in
  endl os.

End StandardRide.

(** ** class PremiumRide : public Ride *)

Module PremiumRide.

Definition ctor (id : Z) (pickup dropoff : string) (dist : float)
  : outcome Ride.t :=
  Ride.ctor id pickup dropoff dist.

Definition calculateFare (this : Ride.t) : Ride.t :=
  Ride.set_fare (PrimFloat.mul (Ride.distance this) 3%float) this.

Definition rideDetails `{num_put} (this : Ride.t) (os : ostream) : ostream :=
  let os := Ride.rideDetails this os in
  let os := put_str " (Premium Ride)" os in
  endl os.

End PremiumRide.

(** ** Objects of the [Ride] family and virtual dispatch *)

(** The dynamic type of an object reached through a [Ride*]: [Ride] itself
    is abstract, so these are the only two. *)
Inductive ride_class : Type :=
| Standard
| Premium.

Record ride_object : Type := mk_object {
  dyn_class : ride_class;
  base : Ride.t
}.

(** [std::make_shared<StandardRide>(...)] and [std::make_shared<PremiumRide>(...)],
    up to the allocation. *)
Definition construct (c : ride_class) (id : Z) (pickup dropoff : string)
    (dist : float) : outcome ride_object :=
  match
    match c with
    | Standard => StandardRide.ctor id pickup dropoff dist
    | Premium => PremiumRide.ctor id pickup dropoff dist
    end
  with
  | Returns b => Returns (mk_object c b)
  | Throws e => Throws e
  end.

(** [ride->calculateFare()] *)
Definition calculateFare (o : ride_object) : ride_object :=
  match dyn_class o with
  | Standard => mk_object Standard (StandardRide.calculateFare (base o))
  | Premium => mk_object Premium (PremiumRide.calculateFare (base o))
  end.

(** [ride->rideDetails()] *)
Definition rideDetails `{num_put} (o : ride_object) (os : ostream) : ostream :=
  match dyn_class o with
  | Standard => StandardRide.rideDetails (base o) os
  | Premium => PremiumRide.rideDetails (base o) os
  end.

(** ** Shared pointers and the free store *)

Abbreviation loc := nat.

(** A [std::shared_ptr<Ride>]: [None] is the null pointer.  Copying the
    pointer copies the location, never the object. *)
Definition shared_ptr : Type := option loc.

(** [static_cast<bool>(p)] *)
Definition to_bool (p : shared_ptr) : bool :=
  match p with Some _ => true | None => false end.

(** [*p]: undefined ([None]) on a null pointer or on a location that holds
    no object. *)
Definition deref (h : gmap loc ride_object) (p : shared_ptr) : option ride_object :=
  match p with
  | Some l => h !! l
  | None => None
  end.

(** [v.empty()] for a [std::vector]. *)
Definition empty {A} (v : list A) : bool :=
  match v with [] => true | _ :: _ => false end.

(** ** class Driver *)

Module Driver.

Record t : Type := mk {
  driverID : Z;
  name : string;
  rating : float;
  assignedRides : list shared_ptr
}.

(** [Driver::Driver] *)
Definition ctor (id : Z) (name : string) (rating : float) : outcome t :=
  let this := mk id name rating [] in
  if PrimFloat.ltb rating 0%float || PrimFloat.ltb 5%float rating
  then Throws (invalid_argument "Rating must be between 0 and 5")
  else Returns this.

(** [assignedRides.push_back(ride)] *)
Definition push_back (ride : shared_ptr) (this : t) : t :=
  mk (driverID this) (name this) (rating this) (assignedRides this ++ [ride]).

(** [Driver::addRide] *)
Definition addRide (ride : shared_ptr) (this : t) : outcome t :=
  if negb (to_bool ride)
  then Throws (invalid_argument "Invalid ride pointer")
  else Returns (push_back ride this).

(** [Driver::getDriverInfo] *)
Definition getDriverInfo `{num_put} (this : t) (os : ostream) : ostream :=
  let os := put_str "Driver ID: " os in
  let os := put_int (driverID this) os in
  let os := put_str (nl +:+ "Name: ") os in
  let os := put_str (name this) os in
  let os := put_str (nl +:+ "Rating: ") os in
  let os := set_fixed os in
  let os := setprecision 2 os in
  let os := put_double (rating this) os in
  let os := put_str (nl +:+ "Completed Rides: ") os in
  let os := put_size (length (assignedRides this)) os in
  endl os.

Definition getDriverID (this : t) : Z := driverID this.
Definition getName (this : t) : string := name this.
Definition getRating (this : t) : float := rating this.

End Driver.

(** ** class Rider *)

Module Rider.

Record t : Type := mk {
  riderID : Z;
  name : string;
  requestedRides : list shared_ptr
}.

(** [Rider::Rider] *)
Definition ctor (id : Z) (name : string) : t := mk id name [].

(** [requestedRides.push_back(ride)] *)
Definition push_back (ride : shared_ptr) (this : t) : t :=
  mk (riderID this) (name this) (requestedRides this ++ [ride]).

(** [Rider::requestRide] *)
Definition requestRide (ride : shared_ptr) (this : t) : outcome t :=
  if negb (to_bool ride)
  then Throws (invalid_argument "Invalid ride pointer")
  else Returns (push_back ride this).

(** The range-[for] of [Rider::viewRides]: [ride->rideDetails()] for each
    element in order.  Dereferencing a pointer that reaches no object is
    undefined, and the loop has no result then. *)
Fixpoint for_each_rideDetails `{num_put} (h : gmap loc ride_object)
    (rides : list shared_ptr) (os : ostream) : option ostream :=
  match rides with
  | [] => Some os
  | ride :: rest =>
      match deref h ride with
      | Some o => for_each_rideDetails h rest (rideDetails o os)
      | None => None
      end
  end.

(** [Rider::viewRides] *)
Definition viewRides `{num_put} (this : t) (h : gmap loc ride_object)
    (os : ostream) : option ostream :=
  let os := put_str "Rider ID: " os in
  let os := put_int (riderID this) os in
  let os := put_str (nl +:+ "Name: ") os in
  let os := put_str (name this) os in
  let os := put_str (nl +:+ "Requested Rides History:") os in
  let os := endl os in
  if empty (requestedRides this)
  then
    let os := put_str "No rides requested yet." os in
    Some (endl os)
  else for_each_rideDetails h (requestedRides this) os.

Definition getRiderID (this : t) : Z := riderID this.
Definition getName (this : t) : string := name this.

End Rider.

(** ** Programs over the classes

    A client of the three classes (such as [main]) is a sequence of calls
    on a store: the rides on the free store, the drivers and riders it has
    declared (numbered in order of declaration), and [std::cout].  Objects
    are never taken out of the store: a [shared_ptr] keeps its object alive
    for as long as anything can still reach it, and an object nothing can
    reach is not observable. *)

Record world : Type := mk_world {
  heap : gmap loc ride_object;
  drivers : gmap nat Driver.t;
  riders : gmap nat Rider.t;
  cout : ostream
}.

Definition world0 : world :=
  {| heap := ∅; drivers := ∅; riders := ∅; cout := cout0 |}.

Definition with_heap (h : gmap loc ride_object) (w : world) : world :=
  mk_world h (drivers w) (riders w) (cout w).
Definition with_drivers (ds : gmap nat Driver.t) (w : world) : world :=
  mk_world (heap w) ds (riders w) (cout w).
Definition with_riders (rs : gmap nat Rider.t) (w : world) : world :=
  mk_world (heap w) (drivers w) rs (cout w).
Definition with_cout (os : ostream) (w : world) : world :=
  mk_world (heap w) (drivers w) (riders w) os.

(** The location [make_shared] hands out next. *)
Definition next_loc (h : gmap loc ride_object) : loc := fresh (dom h).

(** The number the next declared driver or rider gets. *)
Definition next_slot {A} (m : gmap nat A) : nat := fresh (dom m).

Inductive call : Type :=
| MakeShared (c : ride_class) (id : Z) (pickup dropoff : string) (dist : float)
| CalculateFare (ride : shared_ptr)
| RideDetails (ride : shared_ptr)
| NewDriver (id : Z) (name : string) (rating : float)
| AddRide (d : nat) (ride : shared_ptr)
| GetDriverInfo (d : nat)
| NewRider (id : Z) (name : string)
| RequestRide (r : nat) (ride : shared_ptr)
| ViewRides (r : nat).

(** What a call does to the store: it completes, it throws (the store is
    the one the handler sees), or it is undefined (a null or dangling
    dereference, a driver or rider that was never declared). *)
Inductive result : Type :=
| Done (w : world)
| Raised (e : exception) (w : world)
| Undefined.

Definition exec `{num_put} (c : call) (w : world) : result :=
  match c with
  | MakeShared k id pickup dropoff dist =>
      match construct k id pickup dropoff dist with
      | Returns o => Done (with_heap (<[next_loc (heap w) := o]> (heap w)) w)
      | Throws e => Raised e w
      end
  | CalculateFare ride =>
      match ride, deref (heap w) ride with
      | Some l, Some o => Done (with_heap (<[l := calculateFare o]> (heap w)) w)
      | _, _ => Undefined
      end
  | RideDetails ride =>
      match deref (heap w) ride with
      | Some o => Done (with_cout (rideDetails o (cout w)) w)
      | None => Undefined
      end
  | NewDriver id name rating =>
      match Driver.ctor id name rating with
      | Returns d => Done (with_drivers (<[next_slot (drivers w) := d]> (drivers w)) w)
      | Throws e => Raised e w
      end
  | AddRide d ride =>
      match drivers w !! d with
      | Some this =>
          match Driver.addRide ride this with
          | Returns this' => Done (with_drivers (<[d := this']> (drivers w)) w)
          | Throws e => Raised e w
          end
      | None => Undefined
      end
  | GetDriverInfo d =>
      match drivers w !! d with
      | Some this => Done (with_cout (Driver.getDriverInfo this (cout w)) w)
      | None => Undefined
      end
  | NewRider id name =>
      Done (with_riders (<[next_slot (riders w) := Rider.ctor id name]> (riders w)) w)
  | RequestRide r ride =>
      match riders w !! r with
      | Some this =>
          match Rider.requestRide ride this with
          | Returns this' => Done (with_riders (<[r := this']> (riders w)) w)
          | Throws e => Raised e w
          end
      | None => Undefined
      end
  | ViewRides r =>
      match riders w !! r with
      | Some this =>
          match Rider.viewRides this (heap w) (cout w) with
          | Some os => Done (with_cout os w)
          | None => Undefined
          end
      | None => Undefined
      end
  end.

(** A sequence of calls, each in a [try] block of its own: after a throw
    the next call runs on the store the handler saw.  Undefined behaviour
    ends the run without a result. *)
Fixpoint run `{num_put} (cs : list call) (w : world) : option world :=
  match cs with
  | [] => Some w
  | c :: cs' =>
      match exec c w with
      | Done w' => run cs' w'
      | Raised _ w' => run cs' w'
      | Undefined => None
      end
  end.

(** A sequence of [addRide] calls on one driver, each in a [try] block of
    its own; the second component counts the calls that returned. *)
Fixpoint addRides (rides : list shared_ptr) (this : Driver.t) : Driver.t * nat :=
  match rides with
  | [] => (this, 0%nat)
  | ride :: rest =>
      match Driver.addRide ride this with
      | Returns this' =>
          let '(d, n) := addRides rest this' in (d, S n)
      | Throws _ => addRides rest this
      end
  end.

(** ** The "C" locale's [num_put]

    The facet the program actually runs with is the library's, not the
    program's.  For concrete runs the development uses the rendering that
    [facet.num.put.virtuals] prescribes through [printf]: [%.*f] under
    [std::fixed], [%.*g] otherwise, both exact and rounding to nearest with
    ties to even.  No theorem about the classes depends on it: they hold
    for every instance of [num_put]. *)

Module classic.

(** A finite non-zero [double] is [m * 2^e]; this is the integer nearest to
    [m * 2^e * 10^k]. *)
Definition scaled_round (m : positive) (e k : Z) : Z :=
  let num := Z.pos m * (if 0 <=? e then 2 ^ e else 1)
                     * (if 0 <=? k then 10 ^ k else 1) in
  let den := (if 0 <=? e then 1 else 2 ^ (- e))
             * (if 0 <=? k then 1 else 10 ^ (- k)) in
  let q := num / den in
  match 2 * (num mod den) ?= den with
  | Lt => q
  | Gt => q + 1
  | Eq => if Z.even q then q else q + 1
  end.

Definition zeros (n : Z) : string :=
  String.string_of_list_ascii (replicate (Z.to_nat n) "0"%char).

(** [n >= 0] in decimal, at least [width] digits. *)
Definition digits (width : Z) (n : Z) : string :=
  let s := pretty n in
  zeros (width - Z.of_nat (String.length s)) +:+ s.

(** The body of [%.{p}f] for the magnitude [m * 2^e]. *)
Definition fixed_body (p : Z) (m : positive) (e : Z) : string :=
  let n := scaled_round m e p in
  let ip := pretty (n / 10 ^ p) in
  if p =? 0 then ip else ip +:+ "." +:+ digits p (n mod 10 ^ p).

(** Search upwards for the least [k >= k0] with [m * 2^e * 10^k >= 1]. *)
Fixpoint first_unit (fuel : nat) (m : positive) (e k : Z) : Z :=
  match fuel with
  | O => k
  | S fuel' =>
      if (if 0 <=? e then true else 2 ^ (- e) <=? Z.pos m * 10 ^ k)
      then k
      else first_unit fuel' m e (k + 1)
  end.

(** The decimal exponent of [m * 2^e] before rounding. *)
Definition floor_log10 (m : positive) (e : Z) : Z :=
  let ip := Z.shiftl (Z.pos m) e in
  if 0 <? ip
  then Z.of_nat (String.length (pretty ip)) - 1
  else - first_unit 400 m e 1.

(** The digits and the decimal exponent of [m * 2^e] rounded to [d + 1]
    significant digits. *)
Definition sci_parts (d : Z) (m : positive) (e : Z) : Z * Z :=
  let x := floor_log10 m e in
  let n := scaled_round m e (d - x) in
  if 10 ^ (d + 1) <=? n then (n / 10, x + 1) else (n, x).

(** The two halves of the body of [%.{d}e]. *)
Definition sci_mantissa (d n : Z) : string :=
  if d =? 0 then pretty n
  else pretty (n / 10 ^ d) +:+ "." +:+ digits d (n mod 10 ^ d).

Definition sci_exponent (x : Z) : string :=
  "e" +:+ (if x <? 0 then "-" else "+") +:+ digits 2 (Z.abs x).

(** [%g] drops the zeros that end a fraction, and the point with them. *)
Fixpoint strip_zeros_rev (s : list ascii) : list ascii :=
  match s with
  | c :: s' => if Ascii.eqb c "0" then strip_zeros_rev s' else
               if Ascii.eqb c "." then s' else s
  | [] => []
  end.

Definition strip_fraction (s : string) : string :=
  if existsb (Ascii.eqb ".") (String.list_ascii_of_string s)
  then String.string_of_list_ascii (rev (strip_zeros_rev (rev (String.list_ascii_of_string s))))
  else s.

(** The body of [%.{p}g]. *)
Definition general_body (p : Z) (m : positive) (e : Z) : string :=
  let P := if p =? 0 then 1 else p in
  let '(n, x) := sci_parts (P - 1) m e in
  if (-4 <=? x) && (x <? P)
  then strip_fraction (fixed_body (P - 1 - x) m e)
  else strip_fraction (sci_mantissa (P - 1) n) +:+ sci_exponent x.

Definition render (ff : floatfield) (prec : Z) (x : float) : string :=
  let p := if prec <? 0 then 6 else prec in
  match Prim2SF x with
  | S754_nan => "nan"
  | S754_infinity s => (if s then "-" else "") +:+ "inf"
  | S754_zero s =>
      (if s then "-" else "") +:+
      match ff with
      | fixed => if p =? 0 then "0" else "0." +:+ zeros p
      | defaultfloat => "0"
      end
  | S754_finite s m e =>
      (if s then "-" else "") +:+
      match ff with
      | fixed => fixed_body p m e
      | defaultfloat => general_body p m e
      end
  end.

End classic.

Definition classic_num_put : num_put := classic.render.

(** ** The calls of [main]

    What [main] does with the classes, in program order and without the
    banners it prints in between.  The rides get the locations 0 to 7; the
    driver and the rider each get slot 0.  The last two calls are the ones
    [main] expects to throw. *)

Definition main_calls : list call :=
  [ MakeShared Standard 1 "Home" "Work" 5%float;
    MakeShared Premium 2 "Home" "Airport" 15%float;
    CalculateFare (Some 0%nat); CalculateFare (Some 1%nat);
    RideDetails (Some 0%nat); RideDetails (Some 1%nat);
    NewDriver 101 "John Doe" 4.8%float;
    MakeShared Standard 3 "Downtown" "Mall" 3%float;
    MakeShared Premium 4 "Mall" "Airport" 12%float;
    CalculateFare (Some 2%nat); CalculateFare (Some 3%nat);
    AddRide 0 (Some 2%nat); AddRide 0 (Some 3%nat);
    GetDriverInfo 0;
    NewRider 201 "Alice";
    MakeShared Standard 5 "Home" "Gym" 2%float;
    MakeShared Premium 6 "Gym" "Restaurant" 4%float;
    CalculateFare (Some 4%nat); CalculateFare (Some 5%nat);
    RequestRide 0 (Some 4%nat); RequestRide 0 (Some 5%nat);
    ViewRides 0;
    MakeShared Standard 7 "Point A" "Point B" 8%float;
    MakeShared Premium 8 "Point C" "Point D" 8%float;
    CalculateFare (Some 6%nat); RideDetails (Some 6%nat);
    CalculateFare (Some 7%nat); RideDetails (Some 7%nat);
    NewDriver 102 "Invalid" 6%float;
    MakeShared Standard 9 "Start" "End" (-5)%float ].

(** Lines of text, each ended by a newline. *)
Definition lines (ls : list string) : string :=
  foldr (λ l s, l +:+ nl +:+ s) "" ls.

(** A store with one driver and one rider and no rides yet. *)
Definition one_each : world :=
  {| heap := ∅;
     drivers := {[ 0%nat := Driver.mk 101 "John Doe" 4.8%float [] ]};
     riders := {[ 0%nat := Rider.mk 201 "Alice" [] ]};
     cout := cout0 |}.

(** ** The records of the specification

    Section 6 of the specification fixes the text of a ride record, of a
    driver record and of the header of a rider record.  These definitions
    follow its words; the theorems below compare them with what the member
    functions write. *)

Definition spec_variant_label (c : ride_class) : string :=
  match c with
  | Standard => "Standard Ride"
  | Premium => "Premium Ride"
  end.

(** The ride record, with the distance rendered under the format [ff],
    [prec] and the fare in fixed notation with two decimals. *)
Definition spec_ride_record `{num_put} (ff : floatfield) (prec : Z)
    (o : ride_object) : string :=
  "Ride ID: " +:+ pretty (Ride.rideID (base o)) +:+ nl +:+
  "Pickup: " +:+ Ride.pickupLocation (base o) +:+ nl +:+
  "Dropoff: " +:+ Ride.dropoffLocation (base o) +:+ nl +:+
  "Distance: " +:+ do_put ff prec (Ride.distance (base o)) +:+ " miles" +:+ nl +:+
  "Fare: $" +:+ do_put fixed 2 (Ride.fare (base o)) +:+
  " (" +:+ spec_variant_label (dyn_class o) +:+ ")" +:+ nl.

Definition spec_driver_record `{num_put} (id : Z) (name : string)
    (rating : float) (count : nat) : string :=
  "Driver ID: " +:+ pretty id +:+ nl +:+
  "Name: " +:+ name +:+ nl +:+
  "Rating: " +:+ do_put fixed 2 rating +:+ nl +:+
  "Completed Rides: " +:+ pretty count +:+ nl.

Definition spec_rider_header (id : Z) (name : string) : string :=
  "Rider ID: " +:+ pretty id +:+ nl +:+
  "Name: " +:+ name +:+ nl +:+
  "Requested Rides History:" +:+ nl.

Definition concat_str (ss : list string) : string :=
  foldr String.append "" ss.

(** The non-null pointers of a sequence of arguments. *)
Definition non_null (rides : list shared_ptr) : list shared_ptr :=
  filter (λ p, to_bool p = true) rides.

(** Two states of a ride agree on everything but the fare. *)
Definition same_trip (o o' : ride_object) : Prop :=
  dyn_class o' = dyn_class o ∧
  Ride.rideID (base o') = Ride.rideID (base o) ∧
  Ride.pickupLocation (base o') = Ride.pickupLocation (base o) ∧
  Ride.dropoffLocation (base o') = Ride.dropoffLocation (base o) ∧
  Ride.distance (base o') = Ride.distance (base o).

(** Is the call [calculateFare] on the ride at [l]? *)
Definition is_calculateFare (l : loc) (c : call) : bool :=
  match c with
  | CalculateFare (Some l') => bool_decide (l' = l)
  | _ => false
  end.

(** The store a call leaves behind, when it leaves one. *)
Definition after (r : result) : option world :=
  match r with
  | Done w => Some w
  | Raised _ w => Some w
  | Undefined => None
  end.

(** ** Function bodies: statements, [try] and [catch]

    Inside one function a throw is not caught call by call as in [run]: it
    unwinds to the nearest enclosing handler.  A statement either completes
    with a value, unwinds with an exception, or is undefined. *)

Inductive flow (A : Type) : Type :=
| Completes (a : A) (w : world)
| Unwinds (e : exception) (w : world)
| Stuck.
Arguments Completes {A} a w.
Arguments Unwinds {A} e w.
Arguments Stuck {A}.

Definition stmt (A : Type) : Type := world → flow A.

Definition skip : stmt unit := λ w, Completes tt w.

Definition bind {A B} (s : stmt A) (k : A → stmt B) : stmt B :=
  λ w, match s w with
       | Completes a w' => k a w'
       | Unwinds e w' => Unwinds e w'
       | Stuck => Stuck
       end.

#[global] Instance stmt_bind : MBind stmt := λ A B k s, bind s k.

(** [try { body } catch (const std::exception& e) { handler }] *)
Definition try_catch {A} (body : stmt A) (handler : exception → stmt A) : stmt A :=
  λ w, match body w with
       | Unwinds e w' => handler e w'
       | r => r
       end.

(** A call on the store as a statement with result [a]. *)
Definition do_call `{num_put} {A} (a : A) (c : call) : stmt A :=
  λ w, match exec c w with
       | Done w' => Completes a w'
       | Raised e w' => Unwinds e w'
       | Undefined => Stuck
       end.

(** [auto p = std::make_shared<...>(id, pickup, dropoff, dist);] *)
Definition make_shared `{num_put} (c : ride_class) (id : Z)
    (pickup dropoff : string) (dist : float) : stmt shared_ptr :=
  λ w, do_call (Some (next_loc (heap w))) (MakeShared c id pickup dropoff dist) w.

(** [Driver d(id, name, rating);] and [Rider r(id, name);]: the result is
    the slot of the new variable. *)
Definition declare_driver `{num_put} (id : Z) (name : string)
    (rating : float) : stmt nat :=
  λ w, do_call (next_slot (drivers w)) (NewDriver id name rating) w.

Definition declare_rider `{num_put} (id : Z) (name : string) : stmt nat :=
  λ w, do_call (next_slot (riders w)) (NewRider id name) w.

(** [std::cout << s;] and [std::cout << s << std::endl;] *)
Definition print (s : string) : stmt unit :=
  λ w, Completes tt (with_cout (put_str s (cout w)) w).

Definition println (s : string) : stmt unit :=
  λ w, Completes tt (with_cout (endl (put_str s (cout w))) w).

(** [std::cout << std::endl;] *)
Definition newline : stmt unit :=
  λ w, Completes tt (with_cout (endl (cout w)) w).

(** [for (const auto& ride : rides) { ride->calculateFare(); ride->rideDetails(); }] *)
Fixpoint for_each_fare_details `{num_put} (rides : list shared_ptr) : stmt unit :=
  match rides with
  | [] => skip
  | ride :: rest =>
      do_call tt (CalculateFare ride) ;;
      do_call tt (RideDetails ride) ;;
      for_each_fare_details rest
  end.

(** The handler of the two inner [try] blocks of [main]. *)
Definition report_expected (e : exception) : stmt unit :=
  print "Caught expected error: " ;; println (what e).

(** The outer [try] block of [main]. *)
Definition main_try `{num_put} : stmt unit :=
  print ("=== Testing Common Scenarios ===" +:+ nl) ;; newline ;;
  (* Test Scenario 1 *)
  println "Test 1: Basic Ride Creation" ;;
  println "------------------------" ;;
  standardRide ← make_shared Standard 1 "Home" "Work" 5%float;
  premiumRide ← make_shared Premium 2 "Home" "Airport" 15%float;
  do_call tt (CalculateFare standardRide) ;;
  do_call tt (CalculateFare premiumRide) ;;
  println "Standard Ride (5 miles):" ;;
  do_call tt (RideDetails standardRide) ;;
  println (nl +:+ "Premium Ride (15 miles):") ;;
  do_call tt (RideDetails premiumRide) ;;
  newline ;;
  (* Test Scenario 2 *)
  println "Test 2: Driver with Multiple Rides" ;;
  println "------------------------" ;;
  driver ← declare_driver 101 "John Doe" 4.8%float;
  ride1 ← make_shared Standard 3 "Downtown" "Mall" 3%float;
  ride2 ← make_shared Premium 4 "Mall" "Airport" 12%float;
  do_call tt (CalculateFare ride1) ;;
  do_call tt (CalculateFare ride2) ;;
  do_call tt (AddRide driver ride1) ;;
  do_call tt (AddRide driver ride2) ;;
  do_call tt (GetDriverInfo driver) ;;
  newline ;;
  (* Test Scenario 3 *)
  println "Test 3: Rider with Ride History" ;;
  println "------------------------" ;;
  rider ← declare_rider 201 "Alice";
  ride3 ← make_shared Standard 5 "Home" "Gym" 2%float;
  ride4 ← make_shared Premium 6 "Gym" "Restaurant" 4%float;
  do_call tt (CalculateFare ride3) ;;
  do_call tt (CalculateFare ride4) ;;
  do_call tt (RequestRide rider ride3) ;;
  do_call tt (RequestRide rider ride4) ;;
  do_call tt (ViewRides rider) ;;
  newline ;;
  (* Test Scenario 4 *)
  println "Test 4: Polymorphism Demonstration" ;;
  println "------------------------" ;;
  mixed1 ← make_shared Standard 7 "Point A" "Point B" 8%float;
  mixed2 ← make_shared Premium 8 "Point C" "Point D" 8%float;
  println "Same distance (8 miles), different ride types:" ;;
  for_each_fare_details [mixed1; mixed2] ;;
  newline ;;
  (* Test Scenario 5 *)
  println "Test 5: Error Handling" ;;
  println "------------------------" ;;
  try_catch
    (declare_driver 102 "Invalid" 6%float ;; skip)
    report_expected ;;
  try_catch
    (make_shared Standard 9 "Start" "End" (-5)%float ;; skip)
    report_expected ;;
  newline.

(** [main]: its exit status, the store it leaves and [std::cerr]. *)
Definition main `{num_put} (w : world) (cerr : ostream)
    : option (Z * world * ostream) :=
  match main_try w with
  | Completes _ w' => Some (0, w', cerr)
  | Unwinds e w' =>
      Some (1, w', endl (put_str (what e) (put_str "Unexpected error: " cerr)))
  | Stuck => None
  end.

(** ** Comparing texts

    A text written piece by piece and a text given as a whole are the same
    string under different bracketings of [+:+].  Both are read as a tree
    whose leaves are characters and pieces the facet rendered, and compared
    leaf by leaf. *)

Inductive text : Type :=
| TEmpty
| TChar (c : ascii) (t : text)
| TPiece (s : string)
| TApp (a b : text).

Fixpoint text_string (t : text) : string :=
  match t with
  | TEmpty => ""
  | TChar c t' => String c (text_string t')
  | TPiece s => s
  | TApp a b => text_string a +:+ text_string b
  end.

Fixpoint text_items (t : text) : list (ascii + string) :=
  match t with
  | TEmpty => []
  | TChar c t' => inl c :: text_items t'
  | TPiece s => [inr s]
  | TApp a b => text_items a ++ text_items b
  end.

Definition items_string (l : list (ascii + string)) : string :=
  foldr (λ i s, match i with inl c => String c s | inr x => x +:+ s end) "" l.

(** ** The shape of a step

    Whatever call is made, the store afterwards is the old one with at most
    one of these changes.  The invariants below are proved once against
    this relation instead of nine times against [exec]. *)

Inductive changes `{num_put} (w : world) : world → Prop :=
| ch_same :
    changes w w
| ch_make c id pickup dropoff dist :
    PrimFloat.leb dist 0%float = false →
    changes w
      (with_heap (<[next_loc (heap w) :=
                      mk_object c (Ride.mk id pickup dropoff dist 0%float)]>
                    (heap w)) w)
| ch_fare l o :
    heap w !! l = Some o →
    changes w (with_heap (<[l := calculateFare o]> (heap w)) w)
| ch_details l o :
    heap w !! l = Some o →
    changes w (with_cout (rideDetails o (cout w)) w)
| ch_new_driver id name rating :
    PrimFloat.ltb rating 0%float || PrimFloat.ltb 5%float rating = false →
    changes w
      (with_drivers (<[next_slot (drivers w) := Driver.mk id name rating []]>
                       (drivers w)) w)
| ch_add d this l :
    drivers w !! d = Some this →
    changes w
      (with_drivers (<[d := Driver.push_back (Some l) this]> (drivers w)) w)
| ch_info d this :
    drivers w !! d = Some this →
    changes w (with_cout (Driver.getDriverInfo this (cout w)) w)
| ch_new_rider id name :
    changes w
      (with_riders (<[next_slot (riders w) := Rider.mk id name []]>
                      (riders w)) w)
| ch_request r this l :
    riders w !! r = Some this →
    changes w
      (with_riders (<[r := Rider.push_back (Some l) this]> (riders w)) w)
| ch_view r this os :
    riders w !! r = Some this →
    Rider.viewRides this (heap w) (cout w) = Some os →
    changes w (with_cout os w).

(** ** Invariants of the store *)

(** The stream is in fixed notation with precision 2. *)
Definition fixed2 (os : ostream) : Prop :=
  os_floatfield os = fixed ∧ os_precision os = 2.

(** The constructor's guard let the distance through. *)
Definition distance_checked (o : ride_object) : Prop :=
  PrimFloat.leb (Ride.distance (base o)) 0%float = false.

(** The fare is the initial one or the product [calculateFare] stores. *)
Definition fare_known (o : ride_object) : Prop :=
  Ride.fare (base o) = 0%float ∨
  Ride.fare (base o)
  = PrimFloat.mul (Ride.distance (base o))
      match dyn_class o with Standard => 1.5%float | Premium => 3%float end.

(** The constructor's guard let the rating through. *)
Definition rating_checked (d : Driver.t) : Prop :=
  PrimFloat.ltb (Driver.rating d) 0%float = false ∧
  PrimFloat.ltb 5%float (Driver.rating d) = false.

(** No history holds a null pointer. *)
Definition no_null (w : world) : Prop :=
  (∀ k d, drivers w !! k = Some d → Forall (λ p, p ≠ None) (Driver.assignedRides d)) ∧
  (∀ k r, riders w !! k = Some r → Forall (λ p, p ≠ None) (Rider.requestedRides r)).

(** [p] points to an object of the store. *)
Definition live (h : gmap loc ride_object) (p : shared_ptr) : Prop :=
  is_Some (deref h p).

(** Every pointer in a history points to an object. *)
Definition histories_live (w : world) : Prop :=
  (∀ k d, drivers w !! k = Some d → Forall (live (heap w)) (Driver.assignedRides d)) ∧
  (∀ k r, riders w !! k = Some r → Forall (live (heap w)) (Rider.requestedRides r)).

(** The pointer a caller hands to [addRide] or [requestRide] is null or
    one it got from [make_shared], which is then still alive. *)
Definition argument_live (w : world) (c : call) : Prop :=
  match c with
  | AddRide _ (Some l) | RequestRide _ (Some l) => is_Some (heap w !! l)
  | _ => True
  end.

(** The same along a run. *)
Fixpoint arguments_live `{num_put} (cs : list call) (w : world) : Prop :=
  match cs with
  | [] => True
  | c :: cs' =>
      argument_live w c ∧
      match after (exec c w) with
      | Some w' => arguments_live cs' w'
      | None => True
      end
  end.

(** A sequence of [requestRide] calls on one rider, each in a [try] block
    of its own. *)
Fixpoint requestRides (rides : list shared_ptr) (this : Rider.t) : Rider.t :=
  match rides with
  | [] => this
  | ride :: rest =>
      match Rider.requestRide ride this with
      | Returns this' => requestRides rest this'
      | Throws _ => requestRides rest this
      end
  end.

(** * Properties *)

(** ** Strings and streams *)

Lemma append_assoc (a b c : string) : (a +:+ b) +:+ c = a +:+ (b +:+ c).
Proof.
  induction a as [|x a IH]; [reflexivity|].
  change (String x ((a +:+ b) +:+ c) = String x (a +:+ (b +:+ c))).
  by rewrite IH.
Qed.

Lemma append_nil_r (a : string) : a +:+ "" = a.
Proof.
  induction a as [|x a IH]; [reflexivity|].
  change (String x (a +:+ "") = String x a). by rewrite IH.
Qed.

Lemma app_cancel (a b b' : string) : b = b' → a +:+ b = a +:+ b'.
Proof. by intros ->. Qed.

(** Normalise a buffer built by a chain of insertions and compare it with
    the expected text piece by piece. *)
Ltac buf_eq :=
  cbn [os_buf os_floatfield os_precision put_str put_int put_size put_double
       set_fixed setprecision endl];
  rewrite ?append_assoc;
  repeat apply app_cancel;
  try reflexivity.

(** ** IEEE facts the constructors' guards rest on *)

Lemma SFcompare_antisym (x y : spec_float) :
  SFcompare y x = CompOpp <$> SFcompare x y.
Proof.
  destruct x as [sx|sx| |sx mx ex], y as [sy|sy| |sy my ey]; simpl;
    try reflexivity;
    try (by destruct sx); try (by destruct sy); try (by destruct sx, sy).
  change (Pos.compare_cont Eq my mx) with (my ?= mx)%positive.
  change (Pos.compare_cont Eq mx my) with (mx ?= my)%positive.
  rewrite (Z.compare_antisym ex ey), (Pos.compare_antisym mx my).
  destruct sx, sy, (ex ?= ey)%Z; reflexivity.
Qed.

Lemma ltb_leb_false (x y : float) :
  PrimFloat.ltb x y = true → PrimFloat.leb y x = false.
Proof.
  rewrite ltb_spec, leb_spec. unfold SFltb, SFleb.
  rewrite (SFcompare_antisym (Prim2SF x) (Prim2SF y)).
  by destruct (SFcompare (Prim2SF x) (Prim2SF y)) as [[]|].
Qed.

Lemma leb_ltb_false (x y : float) :
  PrimFloat.leb x y = true → PrimFloat.ltb y x = false.
Proof.
  rewrite ltb_spec, leb_spec. unfold SFltb, SFleb.
  rewrite (SFcompare_antisym (Prim2SF x) (Prim2SF y)).
  by destruct (SFcompare (Prim2SF x) (Prim2SF y)) as [[]|].
Qed.

Lemma SF64mul_comm (x y : spec_float) : SF64mul x y = SF64mul y x.
Proof.
  unfold SF64mul, SFmul.
  destruct x as [sx|sx| |sx mx ex], y as [sy|sy| |sy my ey];
    try reflexivity; rewrite (xorb_comm sx sy); try reflexivity.
  by rewrite (Pos.mul_comm mx my), (Z.add_comm ex ey).
Qed.

Lemma mul_comm (x y : float) : PrimFloat.mul x y = PrimFloat.mul y x.
Proof.
  apply Prim2SF_inj. rewrite !mul_spec. apply SF64mul_comm.
Qed.

(** ** Rides: construction and fare *)

Lemma construct_unfold (c : ride_class) (id : Z) (pickup dropoff : string)
    (d : float) :
  construct c id pickup dropoff d =
  if PrimFloat.leb d 0%float
  then Throws (invalid_argument "Distance must be greater than 0")
  else Returns (mk_object c (Ride.mk id pickup dropoff d 0%float)).
Proof.
  unfold construct, StandardRide.ctor, PremiumRide.ctor, Ride.ctor.
  by destruct c, (PrimFloat.leb d 0%float).
Qed.

Lemma construct_positive (c : ride_class) (id : Z) (pickup dropoff : string)
    (d : float) :
  PrimFloat.ltb 0%float d = true →
  construct c id pickup dropoff d =
  Returns (mk_object c (Ride.mk id pickup dropoff d 0%float)).
Proof.
  intros Hd. rewrite construct_unfold. by rewrite (ltb_leb_false _ _ Hd).
Qed.

(** C1: for every distance [d > 0], a [StandardRide] built with distance
    [d] has fare [1.50 * d] after [calculateFare], and a [PremiumRide] has
    fare [3.00 * d]; the product is the binary64 one. *)
Theorem calculateFare_rate (id : Z) (pickup dropoff : string) (d : float) :
  PrimFloat.ltb 0%float d = true →
  (∃ o, construct Standard id pickup dropoff d = Returns o ∧
        Ride.fare (base (calculateFare o)) = (1.5 * d)%float) ∧
  (∃ o, construct Premium id pickup dropoff d = Returns o ∧
        Ride.fare (base (calculateFare o)) = (3 * d)%float).
Proof.
  intros Hd. split; eexists; (split; [by apply construct_positive|]);
    cbn; apply mul_comm.
Qed.

Lemma calculateFare_rate_witness :
  (∃ o, construct Standard 1 "Home" "Work" 5%float = Returns o ∧
        Ride.fare (base (calculateFare o)) = 7.5%float) ∧
  (∃ o, construct Premium 1 "Home" "Work" 5%float = Returns o ∧
        Ride.fare (base (calculateFare o)) = 15%float).
Proof.
  exact (calculateFare_rate 1 "Home" "Work" 5%float eq_refl).
Defined.

(** The product is rounded like every binary64 operation: for the double
    nearest to 0.1 the standard fare is not the double nearest to 0.15, and
    a premium fare can overflow to infinity. *)
Example standard_fare_rounds :
  ∃ o, construct Standard 1 "Home" "Work" 0.1%float = Returns o ∧
       Ride.fare (base (calculateFare o)) = 0.15000000000000002%float ∧
       PrimFloat.eqb (Ride.fare (base (calculateFare o))) 0.15%float = false.
Proof. eexists. repeat split; reflexivity. Qed.

Example premium_fare_overflows :
  ∃ o, construct Premium 2 "Home" "Airport" 1e308%float = Returns o ∧
       Ride.fare (base (calculateFare o)) = infinity.
Proof. eexists. split; reflexivity. Qed.

(** C2: constructing a ride fails with [invalid_argument] exactly when
    [distance <= 0]; when [distance > 0] it succeeds and the new ride has
    the given identifier, endpoints and distance and fare [0]. *)
Theorem construct_guard (c : ride_class) (id : Z) (pickup dropoff : string)
    (d : float) :
  (is_invalid_argument (construct c id pickup dropoff d) ↔
   PrimFloat.leb d 0%float = true) ∧
  (PrimFloat.ltb 0%float d = true →
   ∃ o, construct c id pickup dropoff d = Returns o ∧
        Ride.fare (base o) = 0%float ∧
        o = mk_object c (Ride.mk id pickup dropoff d 0%float)).
Proof.
  split.
  - rewrite construct_unfold. unfold is_invalid_argument.
    destruct (PrimFloat.leb d 0%float); split; intros Hx; try done.
    + by eexists.
    + by destruct Hx.
  - intros Hd. eexists. split; [by apply construct_positive|done].
Qed.

Lemma construct_guard_witness :
  is_invalid_argument (construct Standard 9 "Start" "End" (-5)%float) ∧
  ∃ o, construct Premium 8 "Point C" "Point D" 8%float = Returns o ∧
       Ride.fare (base o) = 0%float ∧
       o = mk_object Premium (Ride.mk 8 "Point C" "Point D" 8%float 0%float).
Proof.
  split.
  - apply (proj1 (construct_guard Standard 9 "Start" "End" (-5)%float)).
    reflexivity.
  - apply (proj2 (construct_guard Premium 8 "Point C" "Point D" 8%float)).
    reflexivity.
Defined.

(** The guard is [dist <= 0], not [!(dist > 0)]: a NaN distance compares
    false with everything and gets through, so a constructed ride need not
    have a positive distance. *)
Example construct_nan :
  construct Standard 1 "Home" "Work" nan
  = Returns (mk_object Standard (Ride.mk 1 "Home" "Work" nan 0%float)).
Proof. reflexivity. Qed.

(** C7: a second [calculateFare] in a row changes nothing, on the object
    and on the store that holds it. *)
Theorem calculateFare_idempotent `{num_put} :
  (∀ o, calculateFare (calculateFare o) = calculateFare o) ∧
  (∀ ride w, run [CalculateFare ride; CalculateFare ride] w
             = run [CalculateFare ride] w).
Proof.
  assert (Hobj : ∀ o, calculateFare (calculateFare o) = calculateFare o).
  { intros [[] b]; reflexivity. }
  split; [exact Hobj|].
  intros [l|] w; [|reflexivity].
  cbn [run exec deref].
  destruct (heap w !! l) as [o|] eqn:Hl; [|reflexivity].
  cbn [with_heap heap deref].
  rewrite lookup_insert_eq, Hobj, insert_insert_eq.
  reflexivity.
Qed.

(** ** Drivers *)

(** C3: a driver is constructed when [0 <= rating <= 5], and the
    constructor throws [invalid_argument] when [rating < 0] or
    [rating > 5]. *)
Theorem Driver_ctor_guard (id : Z) (name : string) (r : float) :
  (PrimFloat.leb 0%float r = true ∧ PrimFloat.leb r 5%float = true →
   Driver.ctor id name r = Returns (Driver.mk id name r [])) ∧
  (PrimFloat.ltb r 0%float = true ∨ PrimFloat.ltb 5%float r = true →
   is_invalid_argument (Driver.ctor id name r)).
Proof.
  unfold Driver.ctor, is_invalid_argument. split.
  - intros [H0 H5].
    by rewrite (leb_ltb_false _ _ H0), (leb_ltb_false _ _ H5).
  - intros [H0|H5].
    + rewrite H0. by eexists.
    + rewrite H5, orb_true_r. by eexists.
Qed.

Lemma Driver_ctor_guard_witness :
  Driver.ctor 101 "John Doe" 4.8%float
  = Returns (Driver.mk 101 "John Doe" 4.8%float []) ∧
  is_invalid_argument (Driver.ctor 102 "Invalid" 6%float).
Proof.
  split.
  - apply (proj1 (Driver_ctor_guard 101 "John Doe" 4.8%float)).
    split; reflexivity.
  - apply (proj2 (Driver_ctor_guard 102 "Invalid" 6%float)).
    right; reflexivity.
Defined.

(** Likewise a NaN rating is neither below 0 nor above 5. *)
Example Driver_ctor_nan :
  Driver.ctor 103 "Nobody" nan = Returns (Driver.mk 103 "Nobody" nan []).
Proof. reflexivity. Qed.

(** ** What the printing members write *)

Lemma Ride_rideDetails_buf `{num_put} (b : Ride.t) (os : ostream) :
  os_buf (Ride.rideDetails b os) =
  os_buf os +:+
  "Ride ID: " +:+ pretty (Ride.rideID b) +:+ nl +:+
  "Pickup: " +:+ Ride.pickupLocation b +:+ nl +:+
  "Dropoff: " +:+ Ride.dropoffLocation b +:+ nl +:+
  "Distance: " +:+ do_put (os_floatfield os) (os_precision os) (Ride.distance b)
  +:+ " miles" +:+ nl +:+
  "Fare: $" +:+ do_put fixed 2 (Ride.fare b).
Proof. unfold Ride.rideDetails. buf_eq. Qed.

(** The text each override adds to [Ride::rideDetails]. *)
Lemma StandardRide_rideDetails_buf `{num_put} (b : Ride.t) (os : ostream) :
  os_buf (StandardRide.rideDetails b os)
  = os_buf (Ride.rideDetails b os) +:+ " (Standard Ride)" +:+ nl.
Proof. unfold StandardRide.rideDetails. buf_eq. Qed.

Lemma PremiumRide_rideDetails_buf `{num_put} (b : Ride.t) (os : ostream) :
  os_buf (PremiumRide.rideDetails b os)
  = os_buf (Ride.rideDetails b os) +:+ " (Premium Ride)" +:+ nl.
Proof. unfold PremiumRide.rideDetails. buf_eq. Qed.

Lemma rideDetails_buf `{num_put} (o : ride_object) (os : ostream) :
  os_buf (rideDetails o os)
  = os_buf os +:+ spec_ride_record (os_floatfield os) (os_precision os) o.
Proof.
  destruct o as [[] b]; unfold rideDetails, spec_ride_record;
    cbn [dyn_class base spec_variant_label];
    rewrite ?StandardRide_rideDetails_buf, ?PremiumRide_rideDetails_buf,
      Ride_rideDetails_buf; buf_eq.
Qed.

Lemma rideDetails_fmt `{num_put} (o : ride_object) (os : ostream) :
  os_floatfield (rideDetails o os) = fixed ∧
  os_precision (rideDetails o os) = 2.
Proof. by destruct o as [[] b]. Qed.

(** C9: [rideDetails] appends one ride record of the specified shape to
    the stream: identifier, pickup, dropoff, distance, then the fare in
    fixed notation with two decimals followed by the variant label; it
    leaves the stream in fixed notation with precision 2. *)
Theorem rideDetails_record `{num_put} (o : ride_object) (os : ostream) :
  os_buf (rideDetails o os)
  = os_buf os +:+
    "Ride ID: " +:+ pretty (Ride.getRideID (base o)) +:+ nl +:+
    "Pickup: " +:+ Ride.getPickupLocation (base o) +:+ nl +:+
    "Dropoff: " +:+ Ride.getDropoffLocation (base o) +:+ nl +:+
    "Distance: " +:+
      do_put (os_floatfield os) (os_precision os) (Ride.getDistance (base o))
      +:+ " miles" +:+ nl +:+
    "Fare: $" +:+ do_put fixed 2 (Ride.getFare (base o)) +:+
      match dyn_class o with
      | Standard => " (Standard Ride)"
      | Premium => " (Premium Ride)"
      end +:+ nl ∧
  os_buf (rideDetails o os)
  = os_buf os +:+ spec_ride_record (os_floatfield os) (os_precision os) o ∧
  os_floatfield (rideDetails o os) = fixed ∧
  os_precision (rideDetails o os) = 2.
Proof.
  split; [|split; [apply rideDetails_buf|apply rideDetails_fmt]].
  rewrite rideDetails_buf. unfold spec_ride_record.
  unfold Ride.getRideID, Ride.getPickupLocation, Ride.getDropoffLocation,
    Ride.getDistance, Ride.getFare.
  destruct o as [[] b]; cbn [dyn_class base spec_variant_label]; buf_eq.
Qed.

Lemma getDriverInfo_buf `{num_put} (d : Driver.t) (os : ostream) :
  os_buf (Driver.getDriverInfo d os)
  = os_buf os +:+
    spec_driver_record (Driver.driverID d) (Driver.name d) (Driver.rating d)
                       (length (Driver.assignedRides d)).
Proof. unfold Driver.getDriverInfo, spec_driver_record. buf_eq. Qed.

(** The loop of [viewRides]: the first record is written under the format
    the stream arrives with, every later one under [fixed], 2, which
    [rideDetails] leaves behind. *)
Lemma for_each_rideDetails_buf `{num_put} (h : gmap loc ride_object)
    (rides : list shared_ptr) (objs : list ride_object) (os : ostream) :
  Forall2 (λ p o, deref h p = Some o) rides objs →
  ∃ os', Rider.for_each_rideDetails h rides os = Some os' ∧
    os_buf os' = os_buf os +:+
      match objs with
      | [] => ""
      | o :: rest =>
          spec_ride_record (os_floatfield os) (os_precision os) o +:+
          concat_str (spec_ride_record fixed 2 <$> rest)
      end.
Proof.
  intros Hall. revert os.
  induction Hall as [|p o rides objs Hp Hall IH]; intros os.
  - exists os. by rewrite append_nil_r.
  - cbn [Rider.for_each_rideDetails]. rewrite Hp.
    destruct (IH (rideDetails o os)) as (os' & Hrun & Hbuf).
    exists os'. split; [done|]. rewrite Hbuf.
    rewrite (rideDetails_buf o os).
    destruct (rideDetails_fmt o os) as [-> ->].
    rewrite append_assoc. apply app_cancel, app_cancel.
    destruct objs as [|o' rest]; reflexivity.
Qed.

(** C6: [viewRides] writes the rider's header and then, when the history
    is empty, the line [No rides requested yet.], and otherwise the ride
    records of the rides it holds, one after the other in insertion
    order. *)
Theorem viewRides_output `{num_put} (this : Rider.t)
    (h : gmap loc ride_object) (objs : list ride_object) (os : ostream) :
  Forall2 (λ p o, deref h p = Some o) (Rider.requestedRides this) objs →
  ∃ os', Rider.viewRides this h os = Some os' ∧
    os_buf os' = os_buf os +:+
      spec_rider_header (Rider.riderID this) (Rider.name this) +:+
      match objs with
      | [] => "No rides requested yet." +:+ nl
      | o :: rest =>
          spec_ride_record (os_floatfield os) (os_precision os) o +:+
          concat_str (spec_ride_record fixed 2 <$> rest)
      end.
Proof.
  intros Hall. unfold Rider.viewRides, spec_rider_header.
  destruct Hall as [|p o rides objs Hp Hall]; cbn [empty].
  - eexists. split; [reflexivity|]. buf_eq.
  - edestruct (for_each_rideDetails_buf h (p :: rides) (o :: objs))
      as (os' & Hrun & Hbuf); [by constructor|].
    exists os'. split; [exact Hrun|]. rewrite Hbuf. buf_eq.
Qed.

(** ** Histories *)

Lemma addRide_non_null (l : loc) (d : Driver.t) :
  Driver.addRide (Some l) d = Returns (Driver.push_back (Some l) d).
Proof. reflexivity. Qed.

Lemma requestRide_non_null (l : loc) (r : Rider.t) :
  Rider.requestRide (Some l) r = Returns (Rider.push_back (Some l) r).
Proof. reflexivity. Qed.

Lemma addRide_throws_iff (ride : shared_ptr) (d : Driver.t) :
  is_invalid_argument (Driver.addRide ride d) ↔ ride = None.
Proof.
  unfold is_invalid_argument. destruct ride as [l|]; cbn; split;
    try done; [by intros [? ?]|by eexists].
Qed.

Lemma requestRide_throws_iff (ride : shared_ptr) (r : Rider.t) :
  is_invalid_argument (Rider.requestRide ride r) ↔ ride = None.
Proof.
  unfold is_invalid_argument. destruct ride as [l|]; cbn; split;
    try done; [by intros [? ?]|by eexists].
Qed.

(** C4: [addRide] and [requestRide] throw [invalid_argument] exactly when
    the pointer is null, and then the store, with every history in it, is
    the one before the call; with a non-null pointer they return, and the
    history is the old one with the pointer added at its end. *)
Theorem null_ride_rejected `{num_put} :
  (∀ ride d, is_invalid_argument (Driver.addRide ride d) ↔ ride = None) ∧
  (∀ ride r, is_invalid_argument (Rider.requestRide ride r) ↔ ride = None) ∧
  (∀ w k d, drivers w !! k = Some d →
     exec (AddRide k None) w
     = Raised (invalid_argument "Invalid ride pointer") w) ∧
  (∀ w k r, riders w !! k = Some r →
     exec (RequestRide k None) w
     = Raised (invalid_argument "Invalid ride pointer") w) ∧
  (∀ l d, ∃ d', Driver.addRide (Some l) d = Returns d' ∧
     Driver.assignedRides d' = Driver.assignedRides d ++ [Some l] ∧
     Driver.driverID d' = Driver.driverID d ∧
     Driver.name d' = Driver.name d ∧
     Driver.rating d' = Driver.rating d) ∧
  (∀ l r, ∃ r', Rider.requestRide (Some l) r = Returns r' ∧
     Rider.requestedRides r' = Rider.requestedRides r ++ [Some l] ∧
     Rider.riderID r' = Rider.riderID r ∧
     Rider.name r' = Rider.name r).
Proof.
  split; [exact addRide_throws_iff|].
  split; [exact requestRide_throws_iff|].
  split; [by intros w k d Hk; cbn; rewrite Hk|].
  split; [by intros w k r Hk; cbn; rewrite Hk|].
  split; intros l x; eexists; (split; [reflexivity|done]).
Qed.

Lemma addRides_spec (rides : list shared_ptr) (d0 : Driver.t) :
  (addRides rides d0).2 = length (non_null rides) ∧
  (addRides rides d0).1
  = Driver.mk (Driver.driverID d0) (Driver.name d0) (Driver.rating d0)
              (Driver.assignedRides d0 ++ non_null rides).
Proof.
  revert d0. induction rides as [|[l|] rides IH]; intros d0.
  - cbn. rewrite app_nil_r. by destruct d0.
  - cbn [addRides]. rewrite addRide_non_null.
    destruct (IH (Driver.push_back (Some l) d0)) as [Hn Hd].
    destruct (addRides rides (Driver.push_back (Some l) d0)) as [d n].
    cbn [fst snd] in *. subst n d. unfold non_null.
    rewrite filter_cons_True by done. cbn [length Driver.push_back
      Driver.driverID Driver.name Driver.rating Driver.assignedRides].
    by rewrite <- app_assoc.
  - cbn [addRides Driver.addRide to_bool negb]. unfold non_null.
    rewrite filter_cons_False by done. apply IH.
Qed.

(** C5: after any sequence of [addRide] calls on a driver just
    constructed, [getDriverInfo] reports as [Completed Rides] the number of
    calls that returned: one for every non-null argument, repeated ones
    included, none for a null argument. *)
Theorem completed_rides_count `{num_put} (id : Z) (name : string)
    (rating : float) (d0 : Driver.t) (rides : list shared_ptr) (os : ostream) :
  Driver.ctor id name rating = Returns d0 →
  (addRides rides d0).2 = length (non_null rides) ∧
  Driver.assignedRides (addRides rides d0).1 = non_null rides ∧
  os_buf (Driver.getDriverInfo (addRides rides d0).1 os)
  = os_buf os +:+ spec_driver_record id name rating (addRides rides d0).2.
Proof.
  intros Hctor.
  assert (d0 = Driver.mk id name rating []) as ->.
  { unfold Driver.ctor in Hctor.
    destruct (_ || _); by inversion Hctor. }
  destruct (addRides_spec rides (Driver.mk id name rating [])) as [Hn Hd].
  rewrite getDriverInfo_buf, Hn, Hd. done.
Qed.

(** ** The store: what a call can change *)

Lemma next_loc_fresh (h : gmap loc ride_object) : h !! next_loc h = None.
Proof. unfold next_loc. apply not_elem_of_dom. apply is_fresh. Qed.

(** One call of a run, once its guard has been rewritten. *)
Ltac store_step :=
  cbn [run exec with_heap with_drivers with_riders with_cout
       heap drivers riders cout].

Lemma run_cons `{num_put} (c : call) (cs : list call) (w : world) :
  run (c :: cs) w = after (exec c w) ≫= run cs.
Proof. cbn [run]. by destruct (exec c w). Qed.

Lemma same_trip_refl (o : ride_object) : same_trip o o.
Proof. by repeat split. Qed.

Lemma same_trip_trans (o1 o2 o3 : ride_object) :
  same_trip o1 o2 → same_trip o2 o3 → same_trip o1 o3.
Proof.
  unfold same_trip. intros (?&?&?&?&?) (?&?&?&?&?).
  repeat split; congruence.
Qed.

Lemma calculateFare_same_trip (o : ride_object) : same_trip o (calculateFare o).
Proof. destruct o as [[] b]; by repeat split. Qed.

(** Every call but [calculateFare] on the ride itself leaves a ride as it
    is. *)
Lemma exec_heap_frame `{num_put} (c : call) (w w' : world) (l : loc)
    (o : ride_object) :
  after (exec c w) = Some w' →
  heap w !! l = Some o →
  is_calculateFare l c = false →
  heap w' !! l = Some o.
Proof.
  intros Hex Hl Hc. destruct c; cbn in Hex.
  - destruct (construct _ _ _ _ _); simplify_eq/=; [|done].
    rewrite lookup_insert_ne; [done|].
    intros Heq. rewrite <- Heq, next_loc_fresh in Hl. done.
  - destruct ride as [l'|]; [|done].
    destruct (heap w !! l') eqn:Hl'; simplify_eq/=.
    apply bool_decide_eq_false in Hc.
    by rewrite lookup_insert_ne.
  - destruct (deref _ _); by simplify_eq/=.
  - destruct (Driver.ctor _ _ _); by simplify_eq/=.
  - destruct (drivers w !! d); [|done].
    destruct (Driver.addRide _ _); by simplify_eq/=.
  - destruct (drivers w !! d); by simplify_eq/=.
  - by simplify_eq/=.
  - destruct (riders w !! r); [|done].
    destruct (Rider.requestRide _ _); by simplify_eq/=.
  - destruct (riders w !! r); [|done].
    destruct (Rider.viewRides _ _ _); by simplify_eq/=.
Qed.

(** [calculateFare] on the ride itself keeps everything but the fare. *)
Lemma exec_heap_trip `{num_put} (c : call) (w w' : world) (l : loc)
    (o : ride_object) :
  after (exec c w) = Some w' →
  heap w !! l = Some o →
  ∃ o', heap w' !! l = Some o' ∧ same_trip o o'.
Proof.
  intros Hex Hl.
  destruct (is_calculateFare l c) eqn:Hc.
  - destruct c as [| [l'|] | | | | | | |]; try discriminate.
    apply bool_decide_eq_true in Hc as ->.
    cbn in Hex. rewrite Hl in Hex. simplify_eq/=.
    exists (calculateFare o). rewrite lookup_insert_eq.
    split; [done|apply calculateFare_same_trip].
  - exists o. split; [by eapply exec_heap_frame|apply same_trip_refl].
Qed.

(** A ride that appears in the store was just constructed, with fare 0. *)
Lemma exec_heap_new `{num_put} (c : call) (w w' : world) (l : loc)
    (o : ride_object) :
  after (exec c w) = Some w' →
  heap w !! l = None →
  heap w' !! l = Some o →
  Ride.fare (base o) = 0%float.
Proof.
  intros Hex Hl Hl'. destruct c; cbn in Hex.
  - rewrite construct_unfold in Hex.
    destruct (PrimFloat.leb dist 0%float); simplify_eq/=.
    destruct (decide (next_loc (heap w) = l)) as [<-|Hne].
    + rewrite lookup_insert_eq in Hl'. by simplify_eq/=.
    + rewrite lookup_insert_ne in Hl' by done. congruence.
  - destruct ride as [l'|]; [|done].
    destruct (heap w !! l') eqn:Hh; simplify_eq/=.
    rewrite lookup_insert_ne in Hl' by congruence. congruence.
  - destruct (deref _ _); simplify_eq/=; congruence.
  - destruct (Driver.ctor _ _ _); simplify_eq/=; congruence.
  - destruct (drivers w !! d); [|done].
    destruct (Driver.addRide _ _); simplify_eq/=; congruence.
  - destruct (drivers w !! d); simplify_eq/=; congruence.
  - simplify_eq/=; congruence.
  - destruct (riders w !! r); [|done].
    destruct (Rider.requestRide _ _); simplify_eq/=; congruence.
  - destruct (riders w !! r); [|done].
    destruct (Rider.viewRides _ _ _); simplify_eq/=; congruence.
Qed.

Lemma run_heap_frame `{num_put} (cs : list call) (w w' : world) (l : loc)
    (o : ride_object) :
  run cs w = Some w' →
  heap w !! l = Some o →
  existsb (is_calculateFare l) cs = false →
  heap w' !! l = Some o.
Proof.
  revert w. induction cs as [|c cs IH]; intros w Hrun Hl Hcs.
  - by simplify_eq/=.
  - rewrite run_cons in Hrun. cbn [existsb] in Hcs.
    apply orb_false_iff in Hcs as [Hc Hcs].
    destruct (after (exec c w)) as [w1|] eqn:Hex; [|done].
    apply (IH w1); [done| |done]. by eapply exec_heap_frame.
Qed.

Lemma run_heap_trip `{num_put} (cs : list call) (w w' : world) (l : loc)
    (o : ride_object) :
  run cs w = Some w' →
  heap w !! l = Some o →
  ∃ o', heap w' !! l = Some o' ∧ same_trip o o'.
Proof.
  revert w o. induction cs as [|c cs IH]; intros w o Hrun Hl.
  - simplify_eq/=. exists o. split; [done|apply same_trip_refl].
  - rewrite run_cons in Hrun.
    destruct (after (exec c w)) as [w1|] eqn:Hex; [|done].
    destruct (exec_heap_trip c w w1 l o Hex Hl) as (o1 & Hl1 & Ht1).
    destruct (IH w1 o1 Hrun Hl1) as (o' & Hl' & Ht').
    exists o'. split; [done|by eapply same_trip_trans].
Qed.

Lemma run_heap_new `{num_put} (cs : list call) (w w' : world) (l : loc)
    (o : ride_object) :
  run cs w = Some w' →
  heap w !! l = None →
  existsb (is_calculateFare l) cs = false →
  heap w' !! l = Some o →
  Ride.fare (base o) = 0%float.
Proof.
  revert w. induction cs as [|c cs IH]; intros w Hrun Hl Hcs Hl'.
  - simplify_eq/=.
  - rewrite run_cons in Hrun. cbn [existsb] in Hcs.
    apply orb_false_iff in Hcs as [Hc Hcs].
    destruct (after (exec c w)) as [w1|] eqn:Hex; [|done].
    destruct (heap w1 !! l) as [o1|] eqn:Hl1.
    + assert (heap w' !! l = Some o1) by by eapply run_heap_frame.
      assert (o = o1) as -> by congruence.
      by eapply exec_heap_new.
    + by apply (IH w1).
Qed.

(** C8: [calculateFare] changes nothing of a ride but its fare; through
    any sequence of calls a ride keeps its class, identifier, endpoints
    and distance, and as long as [calculateFare] is not called on it, it
    keeps its fare as well, which is 0 from its construction on. *)
Theorem fare_frame `{num_put} :
  (∀ o, same_trip o (calculateFare o)) ∧
  (∀ cs w w' l o, run cs w = Some w' → heap w !! l = Some o →
     ∃ o', heap w' !! l = Some o' ∧ same_trip o o' ∧
           (existsb (is_calculateFare l) cs = false → o' = o)) ∧
  (∀ cs w w' l o', run cs w = Some w' → heap w !! l = None →
     existsb (is_calculateFare l) cs = false →
     heap w' !! l = Some o' → Ride.fare (base o') = 0%float).
Proof.
  split; [exact calculateFare_same_trip|]. split.
  - intros cs w w' l o Hrun Hl.
    destruct (run_heap_trip cs w w' l o Hrun Hl) as (o' & Hl' & Ht).
    exists o'. split; [done|]. split; [done|].
    intros Hcs. pose proof (run_heap_frame cs w w' l o Hrun Hl Hcs).
    congruence.
  - intros cs w w' l o'. apply run_heap_new.
Qed.

(** C10: a ride that has only been constructed, so that its fare is still
    0, is accepted by [addRide] and [requestRide] like any other: both
    calls return, neither throws; the driver's and the rider's history are
    the old ones with the pointer added at the end, the ride still has
    fare 0, and [getDriverInfo] counts it. *)
Theorem unpriced_ride_recorded `{num_put} (w : world) (k r : nat)
    (d : Driver.t) (rd : Rider.t) (c : ride_class) (id : Z)
    (pickup dropoff : string) (dist : float) :
  drivers w !! k = Some d →
  riders w !! r = Some rd →
  PrimFloat.ltb 0%float dist = true →
  let l := next_loc (heap w) in
  ∃ w1 w2 w3 w',
    exec (MakeShared c id pickup dropoff dist) w = Done w1 ∧
    exec (AddRide k (Some l)) w1 = Done w2 ∧
    exec (RequestRide r (Some l)) w2 = Done w3 ∧
    exec (GetDriverInfo k) w3 = Done w' ∧
    run [MakeShared c id pickup dropoff dist;
         AddRide k (Some l); RequestRide r (Some l);
         GetDriverInfo k] w = Some w' ∧
    heap w' !! l = Some (mk_object c (Ride.mk id pickup dropoff dist 0%float)) ∧
    drivers w' !! k
    = Some (Driver.mk (Driver.driverID d) (Driver.name d) (Driver.rating d)
                      (Driver.assignedRides d ++ [Some l])) ∧
    riders w' !! r
    = Some (Rider.mk (Rider.riderID rd) (Rider.name rd)
                     (Rider.requestedRides rd ++ [Some l])) ∧
    drivers w' !! k = Some (Driver.push_back (Some l) d) ∧
    riders w' !! r = Some (Rider.push_back (Some l) rd) ∧
    os_buf (cout w')
    = os_buf (cout w) +:+
      spec_driver_record (Driver.driverID d) (Driver.name d) (Driver.rating d)
                         (S (length (Driver.assignedRides d))).
Proof.
  intros Hk Hr Hdist l.
  assert (H1 : exec (MakeShared c id pickup dropoff dist) w
               = Done (with_heap
                         (<[l := mk_object c (Ride.mk id pickup dropoff dist 0%float)]>
                            (heap w)) w)).
  { cbn [exec]. by rewrite construct_positive. }
  eexists. assert (H2 : ∀ w1, drivers w1 = drivers w →
    exec (AddRide k (Some l)) w1
    = Done (with_drivers (<[k := Driver.push_back (Some l) d]> (drivers w1)) w1)).
  { intros w1 Hd1. cbn [exec]. by rewrite Hd1, Hk, addRide_non_null. }
  eexists. assert (H3 : ∀ w2, riders w2 = riders w →
    exec (RequestRide r (Some l)) w2
    = Done (with_riders (<[r := Rider.push_back (Some l) rd]> (riders w2)) w2)).
  { intros w2 Hr2. cbn [exec]. by rewrite Hr2, Hr, requestRide_non_null. }
  eexists. eexists.
  split; [exact H1|]. split; [by apply H2|]. split; [by apply H3|].
  split; [store_step; by rewrite lookup_insert_eq|].
  split.
  { cbn [run]. rewrite H1, H2 by done. rewrite H3 by done.
    store_step. by rewrite lookup_insert_eq. }
  store_step. rewrite !lookup_insert_eq.
  do 5 (split; [reflexivity|]).
  rewrite getDriverInfo_buf.
  cbn [Driver.push_back Driver.driverID Driver.name Driver.rating
       Driver.assignedRides].
  rewrite length_app, Nat.add_1_r. reflexivity.
Qed.

(** ** Concrete runs, under the "C" locale's facet *)

Section Concrete.

#[local] Existing Instance classic_num_put.

(** The first record is written while [std::cout] still has its initial
    format, so its distance reads [5]; every later [double] comes out in
    fixed notation with two decimals, the distances included. *)
Example main_output :
  ∃ w, run main_calls world0 = Some w ∧
    os_buf (cout w) = lines
      [ "Ride ID: 1"; "Pickup: Home"; "Dropoff: Work";
        "Distance: 5 miles"; "Fare: $7.50 (Standard Ride)";
        "Ride ID: 2"; "Pickup: Home"; "Dropoff: Airport";
        "Distance: 15.00 miles"; "Fare: $45.00 (Premium Ride)";
        "Driver ID: 101"; "Name: John Doe"; "Rating: 4.80";
        "Completed Rides: 2";
        "Rider ID: 201"; "Name: Alice"; "Requested Rides History:";
        "Ride ID: 5"; "Pickup: Home"; "Dropoff: Gym";
        "Distance: 2.00 miles"; "Fare: $3.00 (Standard Ride)";
        "Ride ID: 6"; "Pickup: Gym"; "Dropoff: Restaurant";
        "Distance: 4.00 miles"; "Fare: $12.00 (Premium Ride)";
        "Ride ID: 7"; "Pickup: Point A"; "Dropoff: Point B";
        "Distance: 8.00 miles"; "Fare: $12.00 (Standard Ride)";
        "Ride ID: 8"; "Pickup: Point C"; "Dropoff: Point D";
        "Distance: 8.00 miles"; "Fare: $24.00 (Premium Ride)" ].
Proof. eexists. split; vm_compute; reflexivity. Qed.

Lemma completed_rides_count_witness :
  let d0 := Driver.mk 101 "John Doe" 4.8%float [] in
  let rides := [Some 2%nat; None; Some 3%nat; Some 2%nat] in
  Driver.ctor 101 "John Doe" 4.8%float = Returns d0 ∧
  (addRides rides d0).2 = 3%nat ∧
  Driver.assignedRides (addRides rides d0).1
  = [Some 2%nat; Some 3%nat; Some 2%nat] ∧
  os_buf (Driver.getDriverInfo (addRides rides d0).1 cout0)
  = lines ["Driver ID: 101"; "Name: John Doe"; "Rating: 4.80";
           "Completed Rides: 3"].
Proof.
  split; [reflexivity|].
  exact (completed_rides_count 101 "John Doe" 4.8%float
           (Driver.mk 101 "John Doe" 4.8%float [])
           [Some 2%nat; None; Some 3%nat; Some 2%nat] cout0 eq_refl).
Defined.

Lemma viewRides_output_witness :
  let o1 := calculateFare
              (mk_object Standard (Ride.mk 5 "Home" "Gym" 2%float 0%float)) in
  let o2 := calculateFare
              (mk_object Premium (Ride.mk 6 "Gym" "Restaurant" 4%float 0%float)) in
  let h : gmap loc ride_object := <[5%nat := o2]> (<[4%nat := o1]> ∅) in
  (∃ os', Rider.viewRides (Rider.mk 201 "Alice" []) h cout0 = Some os' ∧
     os_buf os' = lines ["Rider ID: 201"; "Name: Alice";
                         "Requested Rides History:";
                         "No rides requested yet."]) ∧
  (∃ os', Rider.viewRides
            (Rider.mk 201 "Alice" [Some 4%nat; Some 5%nat; Some 4%nat]) h cout0
          = Some os' ∧
     os_buf os' = lines
       [ "Rider ID: 201"; "Name: Alice"; "Requested Rides History:";
         "Ride ID: 5"; "Pickup: Home"; "Dropoff: Gym";
         "Distance: 2 miles"; "Fare: $3.00 (Standard Ride)";
         "Ride ID: 6"; "Pickup: Gym"; "Dropoff: Restaurant";
         "Distance: 4.00 miles"; "Fare: $12.00 (Premium Ride)";
         "Ride ID: 5"; "Pickup: Home"; "Dropoff: Gym";
         "Distance: 2.00 miles"; "Fare: $3.00 (Standard Ride)" ]).
Proof.
  intros o1 o2 h. split.
  - refine (viewRides_output (Rider.mk 201 "Alice" []) h [] cout0 _).
    constructor.
  - refine (viewRides_output
              (Rider.mk 201 "Alice" [Some 4%nat; Some 5%nat; Some 4%nat])
              h [o1; o2; o1] cout0 _).
    repeat constructor.
Defined.

Lemma fare_frame_witness :
  let cs := [ MakeShared Standard 5 "Home" "Gym" 2%float;
              RideDetails (Some 0%nat);
              NewRider 201 "Alice"; RequestRide 0 (Some 0%nat);
              ViewRides 0;
              MakeShared Premium 6 "Gym" "Restaurant" 4%float;
              CalculateFare (Some 1%nat) ] in
  ∃ w o, run cs one_each = Some w ∧
    heap w !! 0%nat = Some o ∧ Ride.fare (base o) = 0%float.
Proof.
  intros cs.
  destruct (run cs one_each) as [w|] eqn:Hrun;
    [|vm_compute in Hrun; discriminate].
  destruct (heap w !! 0%nat) as [o|] eqn:Hl.
  - exists w, o. split; [reflexivity|]. split; [exact Hl|].
    exact (proj2 (proj2 fare_frame) cs one_each w 0%nat o Hrun
             eq_refl eq_refl Hl).
  - vm_compute in Hrun. injection Hrun as <-.
    vm_compute in Hl. discriminate.
Defined.

Lemma unpriced_ride_recorded_witness :
  ∃ w1 w2 w3 w',
    exec (MakeShared Standard 3 "Downtown" "Mall" 3%float) one_each = Done w1 ∧
    exec (AddRide 0 (Some 0%nat)) w1 = Done w2 ∧
    exec (RequestRide 0 (Some 0%nat)) w2 = Done w3 ∧
    exec (GetDriverInfo 0) w3 = Done w' ∧
    run [MakeShared Standard 3 "Downtown" "Mall" 3%float;
         AddRide 0 (Some 0%nat); RequestRide 0 (Some 0%nat);
         GetDriverInfo 0] one_each = Some w' ∧
    heap w' !! 0%nat
    = Some (mk_object Standard (Ride.mk 3 "Downtown" "Mall" 3%float 0%float)) ∧
    drivers w' !! 0%nat
    = Some (Driver.mk 101 "John Doe" 4.8%float [Some 0%nat]) ∧
    riders w' !! 0%nat = Some (Rider.mk 201 "Alice" [Some 0%nat]) ∧
    drivers w' !! 0%nat
    = Some (Driver.push_back (Some 0%nat) (Driver.mk 101 "John Doe" 4.8%float [])) ∧
    riders w' !! 0%nat
    = Some (Rider.push_back (Some 0%nat) (Rider.mk 201 "Alice" [])) ∧
    os_buf (cout w')
    = lines ["Driver ID: 101"; "Name: John Doe"; "Rating: 4.80";
             "Completed Rides: 1"].
Proof.
  exact (unpriced_ride_recorded one_each 0 0
           (Driver.mk 101 "John Doe" 4.8%float []) (Rider.mk 201 "Alice" [])
           Standard 3 "Downtown" "Mall" 3%float eq_refl eq_refl eq_refl).
Defined.

End Concrete.

(** * More of the program *)

(** ** Every step has one of ten shapes *)

Lemma exec_changes `{num_put} (c : call) (w w' : world) :
  after (exec c w) = Some w' → changes w w'.
Proof.
  intros Hex. destruct c; cbn in Hex.
  - rewrite construct_unfold in Hex.
    destruct (PrimFloat.leb dist 0%float) eqn:Hd; simplify_eq/=;
      [constructor|by constructor].
  - destruct ride as [l|]; [|done].
    destruct (heap w !! l) eqn:Hl; simplify_eq/=. by constructor.
  - destruct ride as [l|]; [|done]. cbn in Hex.
    destruct (heap w !! l) eqn:Hl; simplify_eq/=. by econstructor.
  - unfold Driver.ctor in Hex.
    destruct (_ || _) eqn:Hr; simplify_eq/=; [constructor|by constructor].
  - destruct (drivers w !! d) eqn:Hd; [|done].
    destruct ride as [l|]; simplify_eq/=; [by constructor|constructor].
  - destruct (drivers w !! d) eqn:Hd; simplify_eq/=. by econstructor.
  - simplify_eq/=. constructor.
  - destruct (riders w !! r) eqn:Hr; [|done].
    destruct ride as [l|]; simplify_eq/=; [by constructor|constructor].
  - destruct (riders w !! r) eqn:Hr; [|done].
    destruct (Rider.viewRides _ _ _) eqn:Hv; simplify_eq/=. by econstructor.
Qed.

(** A property every step keeps is kept by every run. *)
Lemma run_invariant `{num_put} (I : world → Prop) :
  (∀ w w', changes w w' → I w → I w') →
  ∀ cs w w', run cs w = Some w' → I w → I w'.
Proof.
  intros Hstep cs. induction cs as [|c cs IH]; intros w w' Hrun Hw.
  - by simplify_eq/=.
  - rewrite run_cons in Hrun.
    destruct (after (exec c w)) as [w1|] eqn:Hex; [|done].
    apply (IH w1 w' Hrun). eapply Hstep; [|done]. by eapply exec_changes.
Qed.

Lemma next_slot_fresh {A} (m : gmap nat A) : m !! next_slot m = None.
Proof. unfold next_slot. apply not_elem_of_dom. apply is_fresh. Qed.

(** An entry of a map after one insertion is the new one or an old one. *)
Lemma insert_keeps {A} (P : A → Prop) (m : gmap nat A) (i : nat) (x : A) :
  P x → (∀ k a, m !! k = Some a → P a) →
  ∀ k a, <[i := x]> m !! k = Some a → P a.
Proof.
  intros Hx Hm k a [[_ <-]|[_ Hk]]%lookup_insert_Some; [done|by eapply Hm].
Qed.

(** ** Histories only grow *)

(** X1: through any sequence of calls a declared driver stays declared
    with the same identifier, name and rating, and its history is the old
    one with zero or more pointers added at the end. *)
Theorem driver_history_grows `{num_put} (cs : list call) (w w' : world)
    (k : nat) (d : Driver.t) :
  run cs w = Some w' →
  drivers w !! k = Some d →
  ∃ d', drivers w' !! k = Some d' ∧
    Driver.driverID d' = Driver.driverID d ∧
    Driver.name d' = Driver.name d ∧
    Driver.rating d' = Driver.rating d ∧
    Driver.assignedRides d `prefix_of` Driver.assignedRides d'.
Proof.
  intros Hrun Hk.
  apply (run_invariant
    (λ w1, ∃ d', drivers w1 !! k = Some d' ∧
       Driver.driverID d' = Driver.driverID d ∧
       Driver.name d' = Driver.name d ∧
       Driver.rating d' = Driver.rating d ∧
       Driver.assignedRides d `prefix_of` Driver.assignedRides d')
    ) with (cs := cs) (w := w); [|done|by exists d].
  clear. intros w w' Hch (d' & Hk & Hid & Hname & Hrating & Hpre).
  destruct Hch; cbn [drivers with_heap with_cout with_drivers with_riders];
    try (by exists d').
  - exists d'. rewrite lookup_insert_ne; [done|].
    intros Heq. rewrite <- Heq, next_slot_fresh in Hk. done.
  - destruct (decide (d0 = k)) as [->|Hne].
    + rewrite lookup_insert_eq. simplify_eq. eexists. split; [done|].
      cbn. repeat (split; [done|]).
      etrans; [done|]. by apply prefix_app_r.
    + exists d'. by rewrite lookup_insert_ne.
Qed.

(** X2: the same for a rider and its history of requested rides. *)
Theorem rider_history_grows `{num_put} (cs : list call) (w w' : world)
    (k : nat) (r : Rider.t) :
  run cs w = Some w' →
  riders w !! k = Some r →
  ∃ r', riders w' !! k = Some r' ∧
    Rider.riderID r' = Rider.riderID r ∧
    Rider.name r' = Rider.name r ∧
    Rider.requestedRides r `prefix_of` Rider.requestedRides r'.
Proof.
  intros Hrun Hk.
  apply (run_invariant
    (λ w1, ∃ r', riders w1 !! k = Some r' ∧
       Rider.riderID r' = Rider.riderID r ∧
       Rider.name r' = Rider.name r ∧
       Rider.requestedRides r `prefix_of` Rider.requestedRides r')
    ) with (cs := cs) (w := w); [|done|by exists r].
  clear. intros w w' Hch (r' & Hk & Hid & Hname & Hpre).
  destruct Hch; cbn [riders with_heap with_cout with_drivers with_riders];
    try (by exists r').
  - exists r'. rewrite lookup_insert_ne; [done|].
    intros Heq. rewrite <- Heq, next_slot_fresh in Hk. done.
  - destruct (decide (r0 = k)) as [->|Hne].
    + rewrite lookup_insert_eq. simplify_eq. eexists. split; [done|].
      cbn. repeat (split; [done|]).
      etrans; [done|]. by apply prefix_app_r.
    + exists r'. by rewrite lookup_insert_ne.
Qed.

(** X3: the null check of [addRide] and [requestRide] keeps every history
    free of null pointers, whatever the calls and their arguments. *)
Theorem no_null_kept `{num_put} (cs : list call) (w w' : world) :
  run cs w = Some w' → no_null w → no_null w'.
Proof.
  apply (run_invariant no_null). clear. intros w w' Hch [Hd Hr].
  destruct Hch; split;
    cbn [drivers riders with_heap with_cout with_drivers with_riders];
    try done;
    apply insert_keeps; try done; try (by constructor);
    cbn; apply Forall_app; (split; [by eauto|by repeat constructor]).
Qed.

(** ** Class invariants *)

(** X4: no call changes a rating, so in every store reached from one
    whose drivers passed the constructor's guard, every driver's rating is
    neither below 0 nor above 5. *)
Theorem rating_checked_kept `{num_put} (cs : list call) (w w' : world) :
  run cs w = Some w' →
  (∀ k d, drivers w !! k = Some d → rating_checked d) →
  ∀ k d, drivers w' !! k = Some d → rating_checked d.
Proof.
  apply (run_invariant (λ w, ∀ k d, drivers w !! k = Some d → rating_checked d)).
  clear. intros w w' Hch Hd.
  destruct Hch as [ | c id pickup dropoff dist Hdist | l o Hl | l o Hl
             | id name rating Hrating | d this l Hthis | d this Hthis
             | id name | r this l Hthis | r this os Hthis Hview ];
    cbn [drivers with_heap with_cout with_drivers with_riders];
    try done; apply insert_keeps; try done.
  - by apply orb_false_iff in Hrating.
  - exact (Hd d this Hthis).
Qed.

(** X5: no call changes a distance, so every ride of the store keeps the
    property the constructor checked: its distance is not [<= 0]. *)
Theorem distance_checked_kept `{num_put} (cs : list call) (w w' : world) :
  run cs w = Some w' →
  (∀ l o, heap w !! l = Some o → distance_checked o) →
  ∀ l o, heap w' !! l = Some o → distance_checked o.
Proof.
  apply (run_invariant (λ w, ∀ l o, heap w !! l = Some o → distance_checked o)).
  clear. intros w w' Hch Hh.
  destruct Hch as [ | c id pickup dropoff dist Hdist | l o Hl | l o Hl
             | id name rating Hrating | d this l Hthis | d this Hthis
             | id name | r this l Hthis | r this os Hthis Hview ];
    cbn [heap with_heap with_cout with_drivers with_riders];
    try done; apply insert_keeps; try done.
  pose proof (Hh l o Hl) as Ho. by destruct o as [[] b].
Qed.

(** X6: the fare of every ride of the store is either the initial 0 or
    exactly [distance * 1.50] for a standard and [distance * 3.00] for a
    premium ride: there is no other value a fare can take. *)
Theorem fare_known_kept `{num_put} (cs : list call) (w w' : world) :
  run cs w = Some w' →
  (∀ l o, heap w !! l = Some o → fare_known o) →
  ∀ l o, heap w' !! l = Some o → fare_known o.
Proof.
  apply (run_invariant (λ w, ∀ l o, heap w !! l = Some o → fare_known o)).
  clear. intros w w' Hch Hh.
  destruct Hch as [ | c id pickup dropoff dist Hdist | l o Hl | l o Hl
             | id name rating Hrating | d this l Hthis | d this Hthis
             | id name | r this l Hthis | r this os Hthis Hview ];
    cbn [heap with_heap with_cout with_drivers with_riders];
    try done; apply insert_keeps; try done.
  - by left.
  - right. by destruct o as [[] b].
Qed.

(** ** The sign of a fare *)

Section Rounding.

Variables prec emax : Z.

Lemma shr_1_nonneg (mrs : shr_record) :
  0 ≤ shr_m mrs → 0 ≤ shr_m (shr_1 mrs).
Proof. destruct mrs as [[|[p|p|]|p] r s]; cbn; lia. Qed.

Lemma iter_pos_keeps {A} (P : A → Prop) (f : A → A) :
  (∀ x, P x → P (f x)) → ∀ n x, P x → P (SpecFloat.iter_pos f n x).
Proof.
  intros Hf n. induction n as [n IH|n IH|]; intros x Hx; cbn; auto.
Qed.

Lemma shr_fexp_nonneg (m e : Z) (l : location) :
  0 ≤ m → 0 ≤ shr_m (shr_fexp prec emax m e l).1.
Proof.
  intros Hm. unfold shr_fexp, shr.
  assert (0 ≤ shr_m (shr_record_of_loc m l)) as H0
    by by destruct l as [|[]].
  destruct (fexp prec emax (Zdigits2 m + e) - e) as [|p|p]; cbn [fst];
    try done.
  apply (iter_pos_keeps (λ mrs, 0 ≤ shr_m mrs)); [exact shr_1_nonneg|done].
Qed.

Lemma round_nearest_even_nonneg (m : Z) (l : location) :
  0 ≤ m → 0 ≤ round_nearest_even m l.
Proof.
  intros Hm. destruct l as [|[]]; cbn; try lia.
  destruct (Z.even m); lia.
Qed.

(** Rounding a non-negative mantissa gives a zero, a finite number or an
    infinity of the sign asked for, never a NaN. *)
Lemma binary_round_aux_sign (sx : bool) (mx ex : Z) (lx : location) :
  0 ≤ mx →
  match binary_round_aux prec emax sx mx ex lx with
  | S754_zero s | S754_infinity s | S754_finite s _ _ => s = sx
  | S754_nan => False
  end.
Proof.
  intros Hmx. unfold binary_round_aux.
  pose proof (shr_fexp_nonneg mx ex lx Hmx) as H1.
  destruct (shr_fexp prec emax mx ex lx) as [mrs' e']. cbn [fst] in H1.
  pose proof (shr_fexp_nonneg _ e' loc_Exact
                (round_nearest_even_nonneg _ (loc_of_shr_record mrs') H1)) as H2.
  destruct (shr_fexp prec emax _ e' loc_Exact) as [mrs'' e''].
  cbn [fst] in H2.
  destruct (shr_m mrs'') as [|m|m]; [done| |lia].
  by destruct (e'' <=? emax - prec).
Qed.

End Rounding.

(** A [double] above 0 is a positive finite number or plus infinity. *)
Lemma positive_cases (d : float) :
  PrimFloat.ltb 0%float d = true →
  Prim2SF d = S754_infinity false ∨ ∃ m e, Prim2SF d = S754_finite false m e.
Proof.
  rewrite ltb_spec. change (Prim2SF 0%float) with (S754_zero false).
  destruct (Prim2SF d) as [s|s| |s m e]; cbn; try done; destruct s; try done;
    eauto.
Qed.

(** The product of a [double] above 0 with a positive finite one is not
    below 0 and not a NaN. *)
Lemma mul_positive_nonneg (d r : float) (mr : positive) (er : Z) :
  PrimFloat.ltb 0%float d = true →
  Prim2SF r = S754_finite false mr er →
  PrimFloat.leb 0%float (PrimFloat.mul d r) = true.
Proof.
  intros Hd Hr. rewrite leb_spec, mul_spec, Hr.
  change (Prim2SF 0%float) with (S754_zero false).
  destruct (positive_cases d Hd) as [->|(m & e & ->)]; [reflexivity|].
  unfold SF64mul, SFmul. cbn [xorb].
  pose proof (binary_round_aux_sign FloatOps.prec FloatOps.emax false
                (Z.pos (m * mr)) (e + er) loc_Exact) as Hs.
  destruct (binary_round_aux _ _ _ _ _ _) as [s|s| |s m' e'];
    try (rewrite Hs by lia; reflexivity).
  exfalso. apply Hs. lia.
Qed.

(** X7: for a distance above 0 the fare [calculateFare] stores is never
    negative and never a NaN, for either class (it may be plus infinity). *)
Theorem fare_not_negative (c : ride_class) (id : Z) (pickup dropoff : string)
    (d : float) :
  PrimFloat.ltb 0%float d = true →
  ∃ o, construct c id pickup dropoff d = Returns o ∧
       PrimFloat.leb 0%float (Ride.getFare (base (calculateFare o))) = true.
Proof.
  intros Hd. eexists. split; [by apply construct_positive|].
  destruct c; cbn; eapply mul_positive_nonneg; try done; reflexivity.
Qed.

Lemma fare_not_negative_witness :
  ∃ o, construct Premium 2 "Home" "Airport" 1e308%float = Returns o ∧
       PrimFloat.leb 0%float (Ride.getFare (base (calculateFare o))) = true.
Proof.
  exact (fare_not_negative Premium 2 "Home" "Airport" 1e308%float eq_refl).
Defined.

(** ** The stream: sticky format, growing text *)

Lemma getDriverInfo_fmt `{num_put} (d : Driver.t) (os : ostream) :
  fixed2 (Driver.getDriverInfo d os).
Proof. by split. Qed.

(** The loop of [viewRides] only adds text, and after at least one ride
    the stream is in fixed notation with precision 2. *)
Lemma for_each_rideDetails_stream `{num_put} (h : gmap loc ride_object)
    (rides : list shared_ptr) (os os' : ostream) :
  Rider.for_each_rideDetails h rides os = Some os' →
  (∃ s, os_buf os' = os_buf os +:+ s) ∧
  (rides = [] ∧ os' = os ∨ rides ≠ [] ∧ fixed2 os').
Proof.
  revert os. induction rides as [|p rides IH]; intros os Hrun.
  - simplify_eq/=. split; [exists ""; by rewrite append_nil_r|by left].
  - cbn [Rider.for_each_rideDetails] in Hrun.
    destruct (deref h p) as [o|]; [|done].
    destruct (IH _ Hrun) as [[s Hs] Hfmt]. split.
    + eexists. rewrite Hs, rideDetails_buf, append_assoc. reflexivity.
    + right. split; [done|].
      destruct Hfmt as [[_ ->]|[_ Hf]]; [apply rideDetails_fmt|done].
Qed.

Lemma viewRides_stream `{num_put} (this : Rider.t) (h : gmap loc ride_object)
    (os os' : ostream) :
  Rider.viewRides this h os = Some os' →
  (∃ s, os_buf os' = os_buf os +:+ s) ∧
  (fixed2 os → fixed2 os') ∧
  (Rider.requestedRides this ≠ [] → fixed2 os').
Proof.
  unfold Rider.viewRides. intros Hv.
  destruct (Rider.requestedRides this) as [|p rides] eqn:Hrides; cbn [empty] in Hv.
  - simplify_eq/=. split; [|done]. eexists. buf_eq.
  - apply for_each_rideDetails_stream in Hv as [[s Hs] [[? _]|[_ Hf]]]; [done|].
    split; [|done]. eexists. rewrite Hs. buf_eq.
Qed.

(** X8: [rideDetails] and [getDriverInfo] leave [std::cout] in fixed
    notation with precision 2, and no call ever takes it out of that state
    again; so a ride printed twice in a row reads differently the second
    time unless the stream was in that format already. *)
Theorem format_sticky `{num_put} :
  (∀ o os, fixed2 (rideDetails o os)) ∧
  (∀ d os, fixed2 (Driver.getDriverInfo d os)) ∧
  (∀ cs w w', run cs w = Some w' → fixed2 (cout w) → fixed2 (cout w')) ∧
  (∀ o os, os_buf (rideDetails o (rideDetails o os))
           = os_buf os +:+
             spec_ride_record (os_floatfield os) (os_precision os) o +:+
             spec_ride_record fixed 2 o).
Proof.
  split; [exact rideDetails_fmt|]. split; [exact getDriverInfo_fmt|]. split.
  - apply (run_invariant (λ w, fixed2 (cout w))).
    intros w w' Hch Hw.
    destruct Hch as [ | c id pickup dropoff dist Hdist | l o Hl | l o Hl
             | id name rating Hrating | d this l Hthis | d this Hthis
             | id name | r this l Hthis | r this os Hthis Hview ];
      cbn [cout with_heap with_cout with_drivers with_riders];
      try done.
    + exact (rideDetails_fmt o (cout w)).
    + exact (proj1 (proj2 (viewRides_stream this (heap w) (cout w) os Hview)) Hw).
  - intros o os. rewrite rideDetails_buf, rideDetails_buf.
    destruct (rideDetails_fmt o os) as [-> ->]. by rewrite append_assoc.
Qed.

(** X9: text once written to [std::cout] stays: after any sequence of
    calls the buffer is the old one with more text at its end. *)
Theorem output_append_only `{num_put} (cs : list call) (w w' : world) :
  run cs w = Some w' →
  ∃ s, os_buf (cout w') = os_buf (cout w) +:+ s.
Proof.
  intros Hrun.
  apply (run_invariant (λ w1, ∃ s, os_buf (cout w1) = os_buf (cout w) +:+ s))
    with (cs := cs) (w := w); [|done|exists ""; by rewrite append_nil_r].
  clear. intros w1 w2 Hch [s Hs].
  destruct Hch as [ | c id pickup dropoff dist Hdist | l o Hl | l o Hl
             | id name rating Hrating | d this l Hthis | d this Hthis
             | id name | r this l Hthis | r this os Hthis Hview ];
    cbn [cout with_heap with_cout with_drivers with_riders];
    try (by exists s).
  - eexists. rewrite rideDetails_buf, Hs, append_assoc. reflexivity.
  - eexists. rewrite getDriverInfo_buf, Hs, append_assoc. reflexivity.
  - destruct (viewRides_stream this (heap w1) (cout w1) os Hview) as [[s' Hs'] _].
    eexists. rewrite Hs', Hs, append_assoc. reflexivity.
Qed.

(** ** Exceptions *)

(** X14: a call that throws leaves the whole store as it was, and the
    message names the precondition that failed: only [make_shared] with a
    distance [<= 0], a [Driver] with a rating out of range, and [addRide]
    or [requestRide] with a null pointer throw at all. *)
Theorem throw_leaves_store `{num_put} (c : call) (w w' : world) (e : exception) :
  exec c w = Raised e w' →
  w' = w ∧
  match c with
  | MakeShared _ _ _ _ dist =>
      PrimFloat.leb dist 0%float = true ∧
      what e = "Distance must be greater than 0"
  | NewDriver _ _ rating =>
      PrimFloat.ltb rating 0%float || PrimFloat.ltb 5%float rating = true ∧
      what e = "Rating must be between 0 and 5"
  | AddRide _ ride | RequestRide _ ride =>
      ride = None ∧ what e = "Invalid ride pointer"
  | _ => False
  end.
Proof.
  intros Hex. destruct c; cbn in Hex.
  - rewrite construct_unfold in Hex.
    by destruct (PrimFloat.leb dist 0%float); simplify_eq/=.
  - destruct ride as [l|]; [|done]. by destruct (heap w !! l).
  - by destruct (deref _ _).
  - unfold Driver.ctor in Hex. by destruct (_ || _); simplify_eq/=.
  - destruct (drivers w !! d); [|done]. by destruct ride; simplify_eq/=.
  - by destruct (drivers w !! d).
  - done.
  - destruct (riders w !! r); [|done]. by destruct ride; simplify_eq/=.
  - destruct (riders w !! r); [|done]. by destruct (Rider.viewRides _ _ _).
Qed.

(** ** Pointers in histories *)

Lemma changes_live `{num_put} (w w' : world) (p : shared_ptr) :
  changes w w' → live (heap w) p → live (heap w') p.
Proof.
  intros Hch Hp. destruct p as [l|]; [|by destruct Hp].
  unfold live in *. cbn [deref] in *.
  destruct Hch as [ | c id pickup dropoff dist Hdist | l0 o Hl | l0 o Hl
             | id name rating Hrating | d this l0 Hthis | d this Hthis
             | id name | r this l0 Hthis | r this os Hthis Hview ];
    cbn [heap with_heap with_cout with_drivers with_riders]; try done;
    rewrite lookup_insert_is_Some.
  - destruct (decide (next_loc (heap w) = l)); eauto.
  - destruct (decide (l0 = l)); eauto.
Qed.

(** One call keeps every history pointing to objects, when its own
    pointer argument does. *)
Lemma exec_histories_live `{num_put} (c : call) (w w' : world) :
  after (exec c w) = Some w' →
  argument_live w c →
  histories_live w → histories_live w'.
Proof.
  intros Hex Harg [Hd Hr].
  assert (Hmono : ∀ p, live (heap w) p → live (heap w') p)
    by (intros p; by apply changes_live, exec_changes with c).
  assert (Hkeep : ∀ ps, Forall (live (heap w)) ps → Forall (live (heap w')) ps)
    by (intros ps Hps; by eapply Forall_impl).
  destruct c; cbn in Hex.
  - destruct (construct _ _ _ _ _); simplify_eq/=; split; eauto.
  - destruct ride as [l|]; [|done].
    destruct (heap w !! l); simplify_eq/=. split; eauto.
  - destruct (deref _ _); simplify_eq/=. split; eauto.
  - destruct (Driver.ctor _ _ _) as [d|] eqn:Hctor; simplify_eq/=;
      [|split; eauto].
    split; [|eauto]. apply insert_keeps; [|eauto].
    unfold Driver.ctor in Hctor. destruct (_ || _); simplify_eq/=.
    constructor.
  - destruct (drivers w !! d) as [this|] eqn:Hthis; [|done].
    destruct ride as [l|]; simplify_eq/=; [|split; eauto].
    split; [|eauto]. apply insert_keeps; [|eauto].
    cbn. apply Forall_app. split; [by eauto|]. by repeat constructor.
  - destruct (drivers w !! d); simplify_eq/=. split; eauto.
  - simplify_eq/=. split; [eauto|]. apply insert_keeps; [|eauto].
    constructor.
  - destruct (riders w !! r) as [this|] eqn:Hthis; [|done].
    destruct ride as [l|]; simplify_eq/=; [|split; eauto].
    split; [eauto|]. apply insert_keeps; [|eauto].
    cbn. apply Forall_app. split; [by eauto|]. by repeat constructor.
  - destruct (riders w !! r); [|done].
    destruct (Rider.viewRides _ _ _); simplify_eq/=. split; eauto.
Qed.

Lemma run_histories_live `{num_put} (cs : list call) (w w' : world) :
  run cs w = Some w' →
  arguments_live cs w →
  histories_live w → histories_live w'.
Proof.
  revert w. induction cs as [|c cs IH]; intros w Hrun Hargs Hw.
  - by simplify_eq/=.
  - rewrite run_cons in Hrun. destruct Hargs as [Harg Hargs].
    destruct (after (exec c w)) as [w1|] eqn:Hex; [|done].
    apply (IH w1); [done|done|]. by eapply exec_histories_live.
Qed.

Lemma for_each_rideDetails_live `{num_put} (h : gmap loc ride_object)
    (rides : list shared_ptr) (os : ostream) :
  Forall (live h) rides → is_Some (Rider.for_each_rideDetails h rides os).
Proof.
  intros Hall. revert os. induction Hall as [|p rides [o Hp] _ IH]; intros os.
  - by eexists.
  - cbn [Rider.for_each_rideDetails]. rewrite Hp. apply IH.
Qed.

(** X10: as long as callers hand [addRide] and [requestRide] only null
    pointers or pointers to rides of the store, every history points to
    rides of the store, and [viewRides] on a declared rider is defined: its
    loop never dereferences a null or dangling pointer. *)
Theorem viewRides_defined `{num_put} (cs : list call) (w w' : world)
    (r : nat) (this : Rider.t) :
  histories_live w →
  arguments_live cs w →
  run cs w = Some w' →
  riders w' !! r = Some this →
  histories_live w' ∧
  ∃ os, exec (ViewRides r) w' = Done (with_cout os w').
Proof.
  intros Hw Hargs Hrun Hr.
  pose proof (run_histories_live cs w w' Hrun Hargs Hw) as Hw'.
  split; [done|]. cbn [exec]. rewrite Hr. unfold Rider.viewRides.
  destruct (empty (Rider.requestedRides this)); [by eexists|].
  edestruct (for_each_rideDetails_live (heap w') (Rider.requestedRides this))
    as [os ->]; [by eapply (proj2 Hw')|by eexists].
Qed.

(** ** One ride, many holders *)

(** X15: a history holds the ride itself, not a copy: a fare computed
    after [requestRide] is the fare [viewRides] prints. *)
Theorem history_shares_ride `{num_put} (w : world) (r : nat) (this : Rider.t)
    (l : loc) (o : ride_object) :
  riders w !! r = Some this →
  Rider.requestedRides this = [] →
  heap w !! l = Some o →
  ∃ w', run [RequestRide r (Some l); CalculateFare (Some l); ViewRides r] w
        = Some w' ∧
    heap w' !! l = Some (calculateFare o) ∧
    os_buf (cout w')
    = os_buf (cout w) +:+
      spec_rider_header (Rider.riderID this) (Rider.name this) +:+
      spec_ride_record (os_floatfield (cout w)) (os_precision (cout w))
                       (calculateFare o).
Proof.
  intros Hr Hempty Hl.
  cbn [run exec]. rewrite Hr, requestRide_non_null.
  store_step. cbn [deref]. rewrite Hl.
  store_step. rewrite lookup_insert_eq.
  unfold Rider.viewRides.
  cbn [Rider.push_back Rider.requestedRides Rider.riderID Rider.name].
  rewrite Hempty. cbn [app empty Rider.for_each_rideDetails deref].
  rewrite lookup_insert_eq.
  eexists. split; [reflexivity|]. store_step.
  split; [by rewrite lookup_insert_eq|].
  rewrite rideDetails_buf. unfold spec_rider_header. buf_eq.
Qed.

(** ** Accessors *)

Lemma iter_calculateFare (n : nat) (o : ride_object) :
  Nat.iter (S n) calculateFare o = calculateFare o.
Proof.
  induction n as [|n IH]; [reflexivity|].
  change (calculateFare (Nat.iter (S n) calculateFare o) = calculateFare o).
  rewrite IH. by destruct o as [[] b].
Qed.

(** X11: the accessors of a ride return what the constructor was given,
    however many times [calculateFare] has run since; [getFare] returns 0
    before the first run and [distance * rate] after it. *)
Theorem ride_accessors (c : ride_class) (id : Z) (pickup dropoff : string)
    (d : float) (n : nat) :
  PrimFloat.ltb 0%float d = true →
  ∃ o, construct c id pickup dropoff d = Returns o ∧
    let o' := Nat.iter n calculateFare o in
    Ride.getRideID (base o') = id ∧
    Ride.getPickupLocation (base o') = pickup ∧
    Ride.getDropoffLocation (base o') = dropoff ∧
    Ride.getDistance (base o') = d ∧
    Ride.getFare (base o')
    = match n, c with
      | O, _ => 0%float
      | S _, Standard => PrimFloat.mul d 1.5%float
      | S _, Premium => PrimFloat.mul d 3%float
      end.
Proof.
  intros Hd. eexists. split; [by apply construct_positive|].
  destruct n as [|n]; [done|].
  rewrite iter_calculateFare. by destruct c.
Qed.

(** X12: the accessors of a driver return what the constructor was given,
    whatever [addRide] calls have been made since. *)
Theorem driver_accessors (id : Z) (name : string) (rating : float)
    (d0 : Driver.t) (rides : list shared_ptr) :
  Driver.ctor id name rating = Returns d0 →
  Driver.getDriverID (addRides rides d0).1 = id ∧
  Driver.getName (addRides rides d0).1 = name ∧
  Driver.getRating (addRides rides d0).1 = rating.
Proof.
  intros Hctor. unfold Driver.ctor in Hctor.
  destruct (_ || _); simplify_eq/=.
  by rewrite (proj2 (addRides_spec rides (Driver.mk id name rating []))).
Qed.

Lemma requestRides_spec (rides : list shared_ptr) (r0 : Rider.t) :
  requestRides rides r0
  = Rider.mk (Rider.riderID r0) (Rider.name r0)
             (Rider.requestedRides r0 ++ non_null rides).
Proof.
  revert r0. induction rides as [|[l|] rides IH]; intros r0.
  - cbn. rewrite app_nil_r. by destruct r0.
  - cbn [requestRides]. rewrite requestRide_non_null, IH.
    unfold non_null. rewrite filter_cons_True by done.
    cbn. by rewrite <- app_assoc.
  - cbn [requestRides Rider.requestRide to_bool negb]. unfold non_null.
    rewrite filter_cons_False by done. apply IH.
Qed.

(** X13: a rider is constructed for any identifier and name, with an
    empty history; after any sequence of [requestRide] calls its accessors
    return the constructor's arguments and its history holds the non-null
    arguments in the order of the calls. *)
Theorem rider_requests (id : Z) (name : string) (rides : list shared_ptr) :
  Rider.requestedRides (Rider.ctor id name) = [] ∧
  Rider.getRiderID (requestRides rides (Rider.ctor id name)) = id ∧
  Rider.getName (requestRides rides (Rider.ctor id name)) = name ∧
  Rider.requestedRides (requestRides rides (Rider.ctor id name))
  = non_null rides.
Proof. rewrite requestRides_spec. by repeat split. Qed.

(** ** [main] *)

Lemma items_string_app (l1 l2 : list (ascii + string)) :
  items_string (l1 ++ l2) = items_string l1 +:+ items_string l2.
Proof.
  induction l1 as [|[c|x] l1 IH]; cbn [app items_string foldr];
    [reflexivity| |]; fold (items_string (l1 ++ l2)); fold (items_string l1);
    rewrite IH; [reflexivity|by rewrite append_assoc].
Qed.

Lemma text_items_sound (t : text) : text_string t = items_string (text_items t).
Proof.
  induction t as [|c t IH|s|a IHa b IHb]; cbn [text_string text_items].
  - reflexivity.
  - by rewrite IH.
  - cbn. by rewrite append_nil_r.
  - by rewrite items_string_app, IHa, IHb.
Qed.

Lemma text_eq (a b : text) :
  text_items a = text_items b → text_string a = text_string b.
Proof. intros Hab. by rewrite !text_items_sound, Hab. Qed.

Ltac reify_text s :=
  lazymatch s with
  | String.append ?a ?b =>
      let ta := reify_text a in
      let tb := reify_text b in
      constr:(TApp ta tb)
  | String ?c ?t => let tt := reify_text t in constr:(TChar c tt)
  | EmptyString => constr:(TEmpty)
  | _ => constr:(TPiece s)
  end.

(** Decide an equation between two texts built from the same pieces. *)
Ltac same_text :=
  vm_compute;
  (let f := eval cbv delta [String.append] in String.append in
   change f with String.append);
  lazymatch goal with
  | |- ?a = ?b =>
      let ta := reify_text a in
      let tb := reify_text b in
      change (text_string ta = text_string tb);
      apply text_eq; vm_compute; reflexivity
  end.

(** X16: [main] returns 0 and writes nothing to [std::cerr], whatever the
    locale's facet: both exceptions it provokes are caught by the inner
    handlers, which print their messages.  Its output is the banners with
    the records in between; only the first ride record has its distance in
    the stream's initial format.  It leaves eight rides, the driver with
    the rides 2 and 3 and the rider with the rides 4 and 5. *)
Theorem main_returns_0 `{num_put} :
  ∃ w, main world0 cout0 = Some (0, w, cout0) ∧
    dom (heap w) = list_to_set (seq 0 8) ∧
    drivers w
    = {[ 0%nat := Driver.mk 101 "John Doe" 4.8%float [Some 2%nat; Some 3%nat] ]} ∧
    riders w
    = {[ 0%nat := Rider.mk 201 "Alice" [Some 4%nat; Some 5%nat] ]} ∧
    os_buf (cout w) =
      lines [ "=== Testing Common Scenarios ==="; "";
              "Test 1: Basic Ride Creation"; "------------------------";
              "Standard Ride (5 miles):" ] +:+
      spec_ride_record defaultfloat 6
        (mk_object Standard (Ride.mk 1 "Home" "Work" 5%float 7.5%float)) +:+
      lines [ ""; "Premium Ride (15 miles):" ] +:+
      spec_ride_record fixed 2
        (mk_object Premium (Ride.mk 2 "Home" "Airport" 15%float 45%float)) +:+
      lines [ ""; "Test 2: Driver with Multiple Rides";
              "------------------------" ] +:+
      spec_driver_record 101 "John Doe" 4.8%float 2 +:+
      lines [ ""; "Test 3: Rider with Ride History";
              "------------------------" ] +:+
      spec_rider_header 201 "Alice" +:+
      spec_ride_record fixed 2
        (mk_object Standard (Ride.mk 5 "Home" "Gym" 2%float 3%float)) +:+
      spec_ride_record fixed 2
        (mk_object Premium (Ride.mk 6 "Gym" "Restaurant" 4%float 12%float)) +:+
      lines [ ""; "Test 4: Polymorphism Demonstration";
              "------------------------";
              "Same distance (8 miles), different ride types:" ] +:+
      spec_ride_record fixed 2
        (mk_object Standard (Ride.mk 7 "Point A" "Point B" 8%float 12%float)) +:+
      spec_ride_record fixed 2
        (mk_object Premium (Ride.mk 8 "Point C" "Point D" 8%float 24%float)) +:+
      lines [ ""; "Test 5: Error Handling"; "------------------------";
              "Caught expected error: Rating must be between 0 and 5";
              "Caught expected error: Distance must be greater than 0"; "" ].
Proof.
  eexists. split; [vm_compute; reflexivity|].
  do 3 (split; [vm_compute; reflexivity|]).
  same_text.
Qed.

(** ** Concrete runs for the properties above *)

Section ConcreteMore.

#[local] Existing Instance classic_num_put.

(** Name the store a concrete run ends in. *)
Ltac name_run w' Hrun :=
  lazymatch goal with
  | |- ∃ _, run ?cs ?w = Some _ ∧ _ =>
      destruct (run cs w) as [w'|] eqn:Hrun;
      [exists w'; split; [reflexivity|]
      |vm_compute in Hrun; discriminate]
  end.

Lemma empty_store_drivers (P : Driver.t → Prop) :
  ∀ k d, drivers world0 !! k = Some d → P d.
Proof. intros k d Hk. cbv [world0 drivers] in Hk. by rewrite lookup_empty in Hk. Qed.

Lemma empty_store_rides (P : ride_object → Prop) :
  ∀ l o, heap world0 !! l = Some o → P o.
Proof. intros l o Hl. cbv [world0 heap] in Hl. by rewrite lookup_empty in Hl. Qed.

Lemma empty_store_no_null : no_null world0.
Proof.
  split; intros k x Hk; cbv [world0 drivers riders] in Hk;
    by rewrite lookup_empty in Hk.
Qed.

Lemma empty_store_live : histories_live world0.
Proof.
  split; intros k x Hk; cbv [world0 drivers riders] in Hk;
    by rewrite lookup_empty in Hk.
Qed.

Lemma driver_history_grows_witness :
  let cs := [ MakeShared Standard 3 "Downtown" "Mall" 3%float;
              AddRide 0 (Some 0%nat); AddRide 0 None;
              NewDriver 102 "Invalid" 6%float; NewDriver 103 "Jane" 5%float;
              AddRide 1 (Some 0%nat); AddRide 0 (Some 0%nat) ] in
  ∃ w', run cs one_each = Some w' ∧
    ∃ d', drivers w' !! 0%nat = Some d' ∧
      Driver.driverID d' = 101 ∧
      Driver.name d' = "John Doe" ∧
      Driver.rating d' = 4.8%float ∧
      [] `prefix_of` Driver.assignedRides d'.
Proof.
  intros cs. name_run w' Hrun.
  exact (driver_history_grows cs one_each w' 0
           (Driver.mk 101 "John Doe" 4.8%float []) Hrun eq_refl).
Defined.

Lemma rider_history_grows_witness :
  let cs := [ MakeShared Premium 6 "Gym" "Restaurant" 4%float;
              RequestRide 0 (Some 0%nat); RequestRide 0 None;
              NewRider 202 "Bob"; RequestRide 1 (Some 0%nat);
              RequestRide 0 (Some 0%nat); ViewRides 0 ] in
  ∃ w', run cs one_each = Some w' ∧
    ∃ r', riders w' !! 0%nat = Some r' ∧
      Rider.riderID r' = 201 ∧
      Rider.name r' = "Alice" ∧
      [] `prefix_of` Rider.requestedRides r'.
Proof.
  intros cs. name_run w' Hrun.
  exact (rider_history_grows cs one_each w' 0
           (Rider.mk 201 "Alice" []) Hrun eq_refl).
Defined.

Lemma no_null_kept_witness :
  ∃ w', run (main_calls ++ [AddRide 0 None; RequestRide 0 None]) world0
        = Some w' ∧ no_null w'.
Proof.
  name_run w' Hrun.
  exact (no_null_kept _ world0 w' Hrun empty_store_no_null).
Defined.

Lemma rating_checked_kept_witness :
  ∃ w', run main_calls world0 = Some w' ∧
    ∀ k d, drivers w' !! k = Some d → rating_checked d.
Proof.
  name_run w' Hrun.
  exact (rating_checked_kept main_calls world0 w' Hrun
           (empty_store_drivers rating_checked)).
Defined.

Lemma distance_checked_kept_witness :
  ∃ w', run main_calls world0 = Some w' ∧
    ∀ l o, heap w' !! l = Some o → distance_checked o.
Proof.
  name_run w' Hrun.
  exact (distance_checked_kept main_calls world0 w' Hrun
           (empty_store_rides distance_checked)).
Defined.

Lemma fare_known_kept_witness :
  ∃ w', run main_calls world0 = Some w' ∧
    ∀ l o, heap w' !! l = Some o → fare_known o.
Proof.
  name_run w' Hrun.
  exact (fare_known_kept main_calls world0 w' Hrun
           (empty_store_rides fare_known)).
Defined.

Lemma output_append_only_witness :
  ∃ w', run main_calls one_each = Some w' ∧
    ∃ s, os_buf (cout w') = os_buf (cout one_each) +:+ s.
Proof.
  name_run w' Hrun.
  exact (output_append_only main_calls one_each w' Hrun).
Defined.

Lemma viewRides_defined_witness :
  ∃ w', run (take 21 main_calls) world0 = Some w' ∧
    histories_live w' ∧
    ∃ os, exec (ViewRides 0) w' = Done (with_cout os w').
Proof.
  name_run w' Hrun.
  destruct (riders w' !! 0%nat) as [this|] eqn:Hr.
  - refine (viewRides_defined (take 21 main_calls) world0 w' 0 this
              empty_store_live _ Hrun Hr).
    vm_compute. repeat split; by eexists.
  - vm_compute in Hrun. injection Hrun as <-. vm_compute in Hr. discriminate.
Defined.

Lemma ride_accessors_witness :
  ∃ o, construct Standard 1 "Home" "Work" 5%float = Returns o ∧
    let o' := Nat.iter 3 calculateFare o in
    Ride.getRideID (base o') = 1 ∧
    Ride.getPickupLocation (base o') = "Home" ∧
    Ride.getDropoffLocation (base o') = "Work" ∧
    Ride.getDistance (base o') = 5%float ∧
    Ride.getFare (base o') = 7.5%float.
Proof.
  exact (ride_accessors Standard 1 "Home" "Work" 5%float 3 eq_refl).
Defined.

Lemma driver_accessors_witness :
  let d0 := Driver.mk 101 "John Doe" 4.8%float [] in
  let rides := [Some 2%nat; None; Some 3%nat] in
  Driver.getDriverID (addRides rides d0).1 = 101 ∧
  Driver.getName (addRides rides d0).1 = "John Doe" ∧
  Driver.getRating (addRides rides d0).1 = 4.8%float.
Proof.
  exact (driver_accessors 101 "John Doe" 4.8%float
           (Driver.mk 101 "John Doe" 4.8%float [])
           [Some 2%nat; None; Some 3%nat] eq_refl).
Defined.

Lemma throw_leaves_store_witness :
  one_each = one_each ∧
  PrimFloat.leb (-5)%float 0%float = true ∧
  what (invalid_argument "Distance must be greater than 0")
  = "Distance must be greater than 0".
Proof.
  exact (throw_leaves_store (MakeShared Standard 9 "Start" "End" (-5)%float)
           one_each one_each
           (invalid_argument "Distance must be greater than 0") eq_refl).
Defined.

Lemma history_shares_ride_witness :
  let o := mk_object Standard (Ride.mk 5 "Home" "Gym" 2%float 0%float) in
  let w := with_heap {[ 0%nat := o ]} one_each in
  ∃ w', run [RequestRide 0 (Some 0%nat); CalculateFare (Some 0%nat); ViewRides 0] w
        = Some w' ∧
    heap w' !! 0%nat = Some (calculateFare o) ∧
    os_buf (cout w')
    = lines [ "Rider ID: 201"; "Name: Alice"; "Requested Rides History:";
              "Ride ID: 5"; "Pickup: Home"; "Dropoff: Gym";
              "Distance: 2 miles"; "Fare: $3.00 (Standard Ride)" ].
Proof.
  intros o w.
  exact (history_shares_ride w 0 (Rider.mk 201 "Alice" []) 0 o
           eq_refl eq_refl eq_refl).
Defined.

End ConcreteMore.
